(** * flavio.statistics.probability: probability distributions and their
      combination

    A shallow embedding of [flavio/statistics/probability.py].

    Conventions of the embedding.
    - A Python [float] is an exact real number ([R]); rounding, overflow and
      signed zeros are not modelled.  Where the source itself produces or
      tests the special values ([-np.inf], [nan]) the extended type [fval]
      is used.
    - A Python exception is a value of [exn]; a call that can raise returns
      a [result].
    - An instance is a pair of its [id] and its attributes: the source
      defines [__eq__] and [__hash__] through [id(self)].
    - numpy, scipy and math are not part of the repository; the few
      functions of them the source calls are modelled by their documented
      behaviour, each in a definition that carries its Python name. *)

From Stdlib Require Import Reals Lra ZArith String Permutation.
From Stdlib Require Import ClassicalEpsilon FunctionalExtensionality.
From HB Require Import structures.
From mathcomp Require Import boot ssralg matrix.

Set Implicit Arguments.
Unset Strict Implicit.
Unset Printing Implicit Defensive.

Delimit Scope R_scope with Re.

(** ** The reals as a MathComp field

    The matrices of [MultivariateNormalDistribution] are MathComp matrices
    over [R]; this gives [R] the structures they need. *)

Module RealField.

Definition eqr (x y : R) : bool := if Req_dec_T x y then true else false.

Lemma eqrP : Equality.axiom eqr.
Proof. by move=> x y; rewrite /eqr; case: (Req_dec_T x y) => H; constructor. Qed.

HB.instance Definition _ := hasDecEq.Build R eqrP.

Definition findr (P : pred R) (n : nat) : option R :=
  match excluded_middle_informative (exists x, P x) with
  | left ex => Some (proj1_sig (constructive_indefinite_description _ ex))
  | right _ => None
  end.

Lemma findr_correct (P : pred R) n x : findr P n = Some x -> P x.
Proof.
rewrite /findr; case: (excluded_middle_informative _) => // ex [<-].
exact: (proj2_sig (constructive_indefinite_description _ ex)).
Qed.

Lemma findr_complete (P : pred R) : (exists x, P x) -> exists n, findr P n.
Proof.
move=> ex; exists 0%N; rewrite /findr.
by case: (excluded_middle_informative _).
Qed.

Lemma findr_ext (P Q : pred R) : P =1 Q -> findr P =1 findr Q.
Proof. by move=> /functional_extensionality ->. Qed.

HB.instance Definition _ :=
  hasChoice.Build R findr_correct findr_complete findr_ext.

Lemma RplusA : associative Rplus.
Proof. by move=> x y z; rewrite Rplus_assoc. Qed.

Lemma RmultA : associative Rmult.
Proof. by move=> x y z; rewrite Rmult_assoc. Qed.

Lemma Rmult_addl : left_distributive Rmult Rplus.
Proof. by move=> x y z; rewrite Rmult_plus_distr_r. Qed.

Lemma R1_neq0 : R1 != R0.
Proof. by apply/eqP; exact: R1_neq_R0. Qed.

HB.instance Definition _ :=
  GRing.isZmodule.Build R RplusA Rplus_comm Rplus_0_l Rplus_opp_l.

HB.instance Definition _ :=
  GRing.Zmodule_isComNzRing.Build R
    RmultA Rmult_comm Rmult_1_l Rmult_addl R1_neq0.

Lemma RmultVr (x : R) : x != R0 -> Rmult (Rinv x) x = R1.
Proof. by move=> /eqP x0; rewrite Rinv_l. Qed.

HB.instance Definition _ := GRing.ComNzRing_isField.Build R RmultVr Rinv_0.

End RealField.
Export RealField.

(** ** Python values, exceptions and results *)

Inductive exn : Type :=
| AssertionError (msg : string)
| ValueError (msg : string)
| IndexError (msg : string)
| AttributeError (msg : string)
| ZeroDivisionError (msg : string).

Inductive result (A : Type) : Type :=
| Ok (a : A)
| Raise (e : exn).

Arguments Ok {A} a.
Arguments Raise {A} e.

Definition bind {A B : Type} (m : result A) (k : A -> result B) : result B :=
  match m with
  | Ok a => k a
  | Raise e => Raise e
  end.

Notation "x <- m ;; k" := (bind m (fun x => k))
  (at level 61, m at next level, right associativity).

Fixpoint mapM {A B : Type} (f : A -> result B) (s : seq A) : result (seq B) :=
  match s with
  | [::] => Ok [::]
  | a :: s' => b <- f a ;; bs <- mapM f s' ;; Ok (b :: bs)
  end.

(** A number as a Python object: the combiner tests [isinstance(_, float)],
    so the two numeric types are kept apart. *)
Inductive pyval : Type :=
| PyFloat (r : R)
| PyInt (z : Z).

Definition to_R (v : pyval) : R :=
  match v with
  | PyFloat r => r
  | PyInt z => IZR z
  end.

Definition is_float (v : pyval) : bool :=
  if v is PyFloat _ then true else false.

(** [a != b] on numbers compares their values: [5 != 5.0] is [False]. *)
Definition py_ne (a b : pyval) : bool := to_R a != to_R b.

(** A float64 with the special values the source produces or meets. *)
Inductive fval : Type :=
| Fin (r : R)
| PosInf
| NegInf
| NaN.

(** ** The distribution classes *)

(** [scipy.interpolate.interp1d] after construction: the sorted abscissas
    and their ordinates, [fill_value] and [bounds_error]. *)
Record interp1d : Type := Interp1d {
  ix : seq fval;
  iy : seq fval;
  fill_value : fval;
  bounds_error : bool
}.

Inductive dist : Type :=
| UniformDistribution (central_value : pyval) (half_range : R)
| DeltaDistribution (central_value : pyval)
| NormalDistribution (central_value : pyval) (standard_deviation : R)
| AsymmetricNormalDistribution (central_value : pyval)
    (right_deviation left_deviation : R)
| HalfNormalDistribution (central_value : pyval) (standard_deviation : R)
| GaussianUpperLimit (central_value : pyval) (standard_deviation : R)
    (limit confidence_level : R)
| NumericalDistribution (central_value : pyval)
    (logpdf_interp ppf_interp : interp1d).

Definition central_value (d : dist) : pyval :=
  match d with
  | UniformDistribution c _ => c
  | DeltaDistribution c => c
  | NormalDistribution c _ => c
  | AsymmetricNormalDistribution c _ _ => c
  | HalfNormalDistribution c _ => c
  | GaussianUpperLimit c _ _ _ => c
  | NumericalDistribution c _ _ => c
  end.

Definition get_central (d : dist) : pyval := central_value d.

(** The attribute [standard_deviation], which only three classes set. *)
Definition standard_deviation (d : dist) : result R :=
  match d with
  | NormalDistribution _ s => Ok s
  | HalfNormalDistribution _ s => Ok s
  | GaussianUpperLimit _ s _ _ => Ok s
  | _ => Raise (AttributeError "standard_deviation")
  end.

(** An instance: its identity and its attributes. *)
Record obj : Type := Obj { id : nat; val : dist }.

(** [ProbabilityDistribution.__eq__] *)
Definition obj_eq (a b : obj) : bool := id a == id b.

(** [ProbabilityDistribution.__hash__] *)
Definition obj_hash (a : obj) : nat := id a.

(** Creating an instance takes the next free identity. *)
Definition new (d : dist) (next : nat) : obj * nat := (Obj next d, next.+1).

(** ** Functions of the Python library used by the source *)

(** [math.sqrt]: a [ValueError] on a negative argument. *)
Definition math_sqrt (x : R) : result R :=
  if Rlt_dec x 0 then Raise (ValueError "math domain error")
  else Ok (sqrt x).

(** [math.log] on a real: a [ValueError] unless the argument is positive. *)
Definition math_log (x : R) : result R :=
  if Rlt_dec 0 x then Ok (ln x)
  else Raise (ValueError "math domain error").

(** The builtin [sum] of a list: it starts from 0 and adds from the left. *)
Definition py_sum (s : seq R) : R := foldl Rplus 0%Re s.

(** [s[0]] on a list. *)
Definition getitem0 {A : Type} (s : seq A) : result A :=
  match s with
  | [::] => Raise (IndexError "list index out of range")
  | a :: _ => Ok a
  end.

(** ** The combiner *)

Definition inconsistent_input_error : exn :=
  ValueError
    "All distributions to be combined must have the same central value".

Definition unsupported_operation_error : exn :=
  ValueError "Combination only implemented for normal distributions".

Definition univariate_assertion : exn :=
  AssertionError "Combination only implemented for univariate distributions".

(** The [for pd in probability_distributions] loop of
    [combine_distributions]; [gaussians] is the list built so far. *)
Fixpoint combine_loop (central : pyval) (pds gaussians : seq obj)
  : result (seq obj) :=
  match pds with
  | [::] => Ok gaussians
  | pd :: rest =>
      if py_ne (central_value (val pd)) central then
        Raise inconsistent_input_error
      else
        match val pd with
        | DeltaDistribution _ => combine_loop central rest gaussians
        | NormalDistribution _ _ =>
            combine_loop central rest (rcons gaussians pd)
        | _ => Raise unsupported_operation_error
        end
  end.

Definition combine_distributions (probability_distributions : seq obj)
  (next : nat) : result (obj * nat) :=
  if size probability_distributions == 1 then
    first <- getitem0 probability_distributions ;;
    Ok (first, next)
  else
    first <- getitem0 probability_distributions ;;
    let central := central_value (val first) in
    if ~~ is_float central then Raise univariate_assertion
    else
      gaussians <- combine_loop central probability_distributions [::] ;;
      squares <- mapM (fun pd => s <- standard_deviation (val pd) ;;
                                 Ok (s ^ 2)%Re) gaussians ;;
      let err_squared := py_sum squares in
      s <- math_sqrt err_squared ;;
      Ok (new (NormalDistribution central s) next).

(** Vocabulary of the statements about the combiner. *)

Definition has_central (c : R) (pd : obj) : bool :=
  if central_value (val pd) is PyFloat r then r == c else false.

Definition is_delta (pd : obj) : bool :=
  if val pd is DeltaDistribution _ then true else false.

Definition is_normal (pd : obj) : bool :=
  if val pd is NormalDistribution _ _ then true else false.

Definition delta_or_normal (pd : obj) : bool := is_delta pd || is_normal pd.

Definition differs_from (first pd : obj) : bool :=
  py_ne (central_value (val pd)) (central_value (val first)).

(** The standard deviations of the Normal elements, in list order. *)
Definition normal_deviations (pds : seq obj) : seq R :=
  pmap (fun pd => if val pd is NormalDistribution _ s then Some s else None)
       pds.

(** The sum of the squares of a list of reals. *)
Fixpoint sum_of_squares (s : seq R) : R :=
  match s with
  | [::] => 0%Re
  | x :: s' => (x ^ 2 + sum_of_squares s')%Re
  end.

(** ** float64 arithmetic on [fval]

    The IEEE rules for the special values, on exact reals. *)

Definition Rlt_b (x y : R) : bool := if Rlt_dec x y then true else false.

Definition Rle_b (x y : R) : bool := if Rle_dec x y then true else false.

Definition fopp (a : fval) : fval :=
  match a with
  | Fin r => Fin (- r)%Re
  | PosInf => NegInf
  | NegInf => PosInf
  | NaN => NaN
  end.

Definition fadd (a b : fval) : fval :=
  match a, b with
  | NaN, _ | _, NaN => NaN
  | PosInf, NegInf | NegInf, PosInf => NaN
  | PosInf, _ | _, PosInf => PosInf
  | NegInf, _ | _, NegInf => NegInf
  | Fin x, Fin y => Fin (x + y)%Re
  end.

Definition fsub (a b : fval) : fval := fadd a (fopp b).

(** An infinity of the sign of [r], [nan] when [r] is zero. *)
Definition inf_of_sign (r : R) : fval :=
  if Rlt_b 0 r then PosInf else if Rlt_b r 0 then NegInf else NaN.

Definition fmul (a b : fval) : fval :=
  match a, b with
  | NaN, _ | _, NaN => NaN
  | Fin x, Fin y => Fin (x * y)%Re
  | Fin x, PosInf | PosInf, Fin x => inf_of_sign x
  | Fin x, NegInf | NegInf, Fin x => inf_of_sign (- x)%Re
  | PosInf, PosInf | NegInf, NegInf => PosInf
  | PosInf, NegInf | NegInf, PosInf => NegInf
  end.

Definition fdiv (a b : fval) : fval :=
  match a, b with
  | NaN, _ | _, NaN => NaN
  | Fin x, Fin y => if y == 0%Re then inf_of_sign x else Fin (x / y)%Re
  | Fin _, PosInf | Fin _, NegInf => Fin 0%Re
  | PosInf, Fin y => if Rlt_b y 0 then NegInf else PosInf
  | NegInf, Fin y => if Rlt_b y 0 then PosInf else NegInf
  | _, _ => NaN
  end.

(** [a < b]; a comparison with [nan] is false. *)
Definition flt (a b : fval) : bool :=
  match a, b with
  | NaN, _ | _, NaN => false
  | Fin x, Fin y => Rlt_b x y
  | NegInf, NegInf | PosInf, _ => false
  | NegInf, _ | _, PosInf => true
  | Fin _, NegInf => false
  end.

(** [math.log] on a numpy float. *)
Definition math_log_f (a : fval) : result fval :=
  match a with
  | Fin x => l <- math_log x ;; Ok (Fin l)
  | PosInf => Ok PosInf
  | NaN => Ok NaN
  | NegInf => Raise (ValueError "math domain error")
  end.

(** [np.sign] *)
Definition np_sign (x : R) : R :=
  if Rlt_b 0 x then 1%Re else if Rlt_b x 0 then (-1)%Re else 0%Re.

(** ** scipy.stats.norm

    [norm.pdf(x, loc, scale)] is [exp(-y**2/2)/sqrt(2*pi)/scale] and
    [norm.logpdf(x, loc, scale)] is [-y**2/2 - log(sqrt(2*pi)) - log(scale)]
    with [y = (x - loc)/scale]; both are [nan] unless [scale > 0]. *)

Definition norm_pdf (x loc scale : R) : fval :=
  if Rlt_b 0 scale then
    Fin (exp (- ((x - loc) / scale) ^ 2 / 2) / sqrt (2 * PI) / scale)%Re
  else NaN.

Definition norm_logpdf (x loc scale : R) : fval :=
  if Rlt_b 0 scale then
    Fin (- ((x - loc) / scale) ^ 2 / 2 - ln (sqrt (2 * PI)) - ln scale)%Re
  else NaN.

(** ** The primitive distributions *)

(** [UniformDistribution.__init__]: the attribute [range]. *)
Definition uniform_range (central : pyval) (half_range : R) : R * R :=
  ((to_R central - half_range)%Re, (to_R central + half_range)%Re).

(** [UniformDistribution.logpdf] *)
Definition uniform_logpdf (central : pyval) (half_range x : R)
  : result fval :=
  let range := uniform_range central half_range in
  if Rlt_b x range.1 || Rle_b range.2 x then Ok (Fin 0%Re)
  else l <- math_log (2 * half_range)%Re ;; Ok (Fin (- l)%Re).

(** [DeltaDistribution.logpdf] *)
Definition delta_logpdf (central : pyval) (x : R) : result fval :=
  if x == to_R central then Ok (Fin 0%Re) else Ok NegInf.

(** [NormalDistribution.logpdf] *)
Definition normal_logpdf (central : pyval) (standard_deviation x : R)
  : result fval :=
  Ok (norm_logpdf x (to_R central) standard_deviation).

(** [AsymmetricNormalDistribution.__init__] *)
Definition AsymmetricNormalDistribution_init (central : pyval)
  (right_deviation left_deviation : R) : result dist :=
  if Rlt_b right_deviation 0 || Rlt_b left_deviation 0 then
    Raise (ValueError
             "Left and right standard deviations must be positive numbers")
  else Ok (AsymmetricNormalDistribution central right_deviation
             left_deviation).

(** [AsymmetricNormalDistribution.logpdf] *)
Definition asymmetric_logpdf (central : pyval)
  (right_deviation left_deviation x : R) : result fval :=
  let p_right := norm_pdf (to_R central) (to_R central) right_deviation in
  let p_left := norm_pdf (to_R central) (to_R central) left_deviation in
  if Rlt_b x (to_R central) then
    let r := fdiv (fmul (Fin 2%Re) p_right) (fadd p_left p_right) in
    lr <- math_log_f r ;;
    Ok (fadd lr (norm_logpdf x (to_R central) left_deviation))
  else
    let r := fdiv (fmul (Fin 2%Re) p_left) (fadd p_left p_right) in
    lr <- math_log_f r ;;
    Ok (fadd lr (norm_logpdf x (to_R central) right_deviation)).

(** [HalfNormalDistribution.logpdf] *)
Definition halfnormal_logpdf (central : pyval) (standard_deviation x : R)
  : result fval :=
  if Rlt_b (np_sign standard_deviation * (x - to_R central))%Re 0 then
    Ok NegInf
  else
    l2 <- math_log 2%Re ;;
    Ok (fadd (Fin l2)
          (norm_logpdf x (to_R central) (Rabs standard_deviation))).

(** [GaussianUpperLimit.get_standard_deviation]; [norm_ppf] stands for
    [scipy.stats.norm.ppf], the quantile function of the standard normal
    distribution. *)
Definition get_standard_deviation (norm_ppf : R -> R)
  (limit confidence_level : R) : R :=
  (limit * norm_ppf (1 / 2 + confidence_level / 2))%Re.

(** [GaussianUpperLimit.__init__] *)
Definition GaussianUpperLimit_init (norm_ppf : R -> R)
  (limit confidence_level : R) : result dist :=
  if Rlt_b 1 confidence_level || Rlt_b confidence_level 0 then
    Raise (ValueError "Confidence level should be between 0 und 1")
  else
    Ok (GaussianUpperLimit (PyInt 0)
          (get_standard_deviation norm_ppf limit confidence_level)
          limit confidence_level).

(** ** numpy on arrays of floats *)

(** The order numpy sorts and searches by: [nan] comes last. *)
Definition np_lt (a b : fval) : bool :=
  match a, b with
  | NaN, _ => false
  | _, NaN => true
  | _, _ => flt a b
  end.

Definition np_le (a b : fval) : bool := ~~ np_lt b a.

(** [np.log], elementwise; numpy warns but does not raise. *)
Definition np_log (a : fval) : fval :=
  match a with
  | Fin x => if Rlt_b 0 x then Fin (ln x)
             else if x == 0%Re then NegInf else NaN
  | PosInf => PosInf
  | NegInf | NaN => NaN
  end.

(** [np.cumsum]: [acc] is the sum of the entries already passed. *)
Fixpoint cumsum_from (acc : fval) (s : seq fval) : seq fval :=
  match s with
  | [::] => [::]
  | a :: s' => fadd acc a :: cumsum_from (fadd acc a) s'
  end.

Definition np_cumsum (s : seq fval) : seq fval :=
  match s with
  | [::] => [::]
  | a :: s' => a :: cumsum_from a s'
  end.

(** [a[0] = v] and [a[-1] = v] on an array. *)
Definition set_first (v : fval) (s : seq fval) : result (seq fval) :=
  match s with
  | [::] => Raise (IndexError "index 0 is out of bounds")
  | _ :: s' => Ok (v :: s')
  end.

Definition set_last (v : fval) (s : seq fval) : result (seq fval) :=
  match s with
  | [::] => Raise (IndexError "index -1 is out of bounds")
  | a :: s' => Ok (rcons (belast a s') v)
  end.

(** [a[-1]] on an array of floats. *)
Definition getitem_last (s : seq R) : result R :=
  match s with
  | [::] => Raise (IndexError "index -1 is out of bounds")
  | a :: s' => Ok (last a s')
  end.

(** [np.argmax]: the first index of a largest entry. *)
Fixpoint argmax_from (best : R) (ibest i : nat) (s : seq R) : nat :=
  match s with
  | [::] => ibest
  | a :: s' =>
      if Rlt_b best a then argmax_from a i i.+1 s'
      else argmax_from best ibest i.+1 s'
  end.

Definition np_argmax (s : seq R) : result nat :=
  match s with
  | [::] => Raise (ValueError "attempt to get argmax of an empty sequence")
  | a :: s' => Ok (argmax_from a 0 1 s')
  end.

Definition getitem (s : seq R) (i : nat) : result R :=
  if (i < size s)%N then Ok (nth 0%Re s i)
  else Raise (IndexError "index out of bounds").

(** [np.searchsorted(a, v)] on a sorted array: the first index whose entry
    is not below [v]. *)
Definition np_searchsorted (a : seq fval) (v : fval) : nat :=
  find (fun e => ~~ np_lt e v) a.

(** [clip(lo, hi)] on an index; numpy takes the minimum with [hi] last. *)
Definition clip (lo hi i : nat) : nat := minn (maxn i lo) hi.

(** ** scipy.interpolate.interp1d, linear kind

    The constructor wants as many ordinates as abscissas and at least two
    points, and sorts the points by abscissa ([assume_sorted] is False by
    default).  [bounds_error] is True unless the caller says otherwise: a
    [fill_value] alone does not change it. *)

Definition interp1d_init (x y : seq fval) (fill : fval) (bounds : bool)
  : result interp1d :=
  if size x != size y then
    Raise (ValueError
      "x and y arrays must be equal in length along interpolation axis.")
  else if (size x < 2)%N then
    Raise (ValueError "x and y arrays must have at least 2 entries")
  else
    let pts := sort (fun p q : fval * fval => np_le p.1 q.1) (zip x y) in
    Ok (Interp1d (unzip1 pts) (unzip2 pts) fill bounds).

(** [interp1d._call_linear] *)
Definition call_linear (f : interp1d) (x_new : fval) : fval :=
  let i := clip 1 (size (ix f)).-1 (np_searchsorted (ix f) x_new) in
  let lo := i.-1 in
  let hi := i in
  let x_lo := nth NaN (ix f) lo in
  let x_hi := nth NaN (ix f) hi in
  let y_lo := nth NaN (iy f) lo in
  let y_hi := nth NaN (iy f) hi in
  let slope := fdiv (fsub y_hi y_lo) (fsub x_hi x_lo) in
  fadd (fmul slope (fsub x_new x_lo)) y_lo.

(** [interp1d.__call__] on one value: [_check_bounds], then the
    interpolation, then [fill_value] where the value was out of bounds. *)
Definition interp1d_call (f : interp1d) (x_new : fval) : result fval :=
  let below_bounds := flt x_new (head NaN (ix f)) in
  let above_bounds := flt (last NaN (ix f)) x_new in
  if bounds_error f && below_bounds then
    Raise (ValueError "A value in x_new is below the interpolation range.")
  else if bounds_error f && above_bounds then
    Raise (ValueError "A value in x_new is above the interpolation range.")
  else
    let y_new := call_linear f x_new in
    Ok (if below_bounds || above_bounds then fill_value f else y_new).

(** ** NumericalDistribution *)

(** The normalised density [_y_norm] and the table [_cdf] of
    [NumericalDistribution.__init__]. *)
Definition y_norm (y : seq R) (x_range : R) : seq fval :=
  [seq fmul (fdiv (Fin yi) (Fin (py_sum y))) (Fin x_range) | yi <- y].

Definition cdf_table (y : seq R) (x_range : R) : result (seq fval) :=
  let cdf := [seq fdiv c (Fin x_range) | c <- np_cumsum (y_norm y x_range)] in
  cdf0 <- set_first (Fin 0%Re) cdf ;;
  set_last (Fin 1%Re) cdf0.

(** [NumericalDistribution.__init__] *)
Definition NumericalDistribution_init (x y : seq R)
  (central : option pyval) : result dist :=
  c <- match central with
       | Some c => Ok c
       | None => i <- np_argmax y ;; mode <- getitem x i ;; Ok (PyFloat mode)
       end ;;
  x_last <- getitem_last x ;;
  x_first <- getitem0 x ;;
  let x_range := (x_last - x_first)%Re in
  logpdf_interp <- interp1d_init (map Fin x)
                     (map np_log (y_norm y x_range)) NegInf true ;;
  cdf <- cdf_table y x_range ;;
  ppf_interp <- interp1d_init cdf (map Fin x) NaN true ;;
  Ok (NumericalDistribution c logpdf_interp ppf_interp).

(** [NumericalDistribution.logpdf] *)
Definition numerical_logpdf (logpdf_interp : interp1d) (x : R)
  : result fval :=
  interp1d_call logpdf_interp (Fin x).

(** ** [logpdf], by class; [GaussianUpperLimit] inherits the method of
    [HalfNormalDistribution]. *)
Definition logpdf (d : dist) (x : R) : result fval :=
  match d with
  | UniformDistribution c h => uniform_logpdf c h x
  | DeltaDistribution c => delta_logpdf c x
  | NormalDistribution c s => normal_logpdf c s x
  | AsymmetricNormalDistribution c r l => asymmetric_logpdf c r l x
  | HalfNormalDistribution c s => halfnormal_logpdf c s x
  | GaussianUpperLimit c s _ _ => halfnormal_logpdf c s x
  | NumericalDistribution _ f _ => numerical_logpdf f x
  end.

(** ** Reference densities, as the textbooks write them *)

(** The Gaussian density with mean [c] and standard deviation [s]. *)
Definition gaussian_density (c s x : R) : R :=
  (exp (- (x - c) ^ 2 / (2 * s ^ 2)) / (s * sqrt (2 * PI)))%Re.

Definition gaussian_log_density (c s x : R) : R :=
  ln (gaussian_density c s x).

(** The density a [logpdf] result stands for: [exp] of a finite value, 0
    for minus infinity. *)
Definition density_of (v : result fval) : R :=
  match v with
  | Ok (Fin l) => exp l
  | _ => 0%Re
  end.

(** ** Tables of reals

    The same computations on exact reals, for tables without special
    values; the theorems relate them to the [fval] ones. *)

Fixpoint cumsumR_from (acc : R) (s : seq R) : seq R :=
  match s with
  | [::] => [::]
  | a :: s' => (acc + a)%Re :: cumsumR_from (acc + a)%Re s'
  end.

Definition cumsumR (s : seq R) : seq R :=
  match s with
  | [::] => [::]
  | a :: s' => a :: cumsumR_from a s'
  end.

(** The table [_cdf] before its two ends are set. *)
Definition cdfR (y : seq R) (x_range : R) : seq R :=
  [seq (c / x_range)%Re
  | c <- cumsumR [seq (yi / py_sum y * x_range)%Re | yi <- y]].

(** The table with its first entry set to 0 and its last to 1. *)
Definition clamp (s : seq R) : seq R :=
  match s with
  | [::] => [::]
  | _ :: s' => rcons (belast 0%Re s') 1%Re
  end.

(** The linear interpolation of [call_linear], on reals. *)
Definition linear_interp (cs xs : seq R) (p : R) : R :=
  let i := clip 1 (size cs).-1 (find (Rle_b p) cs) in
  let c_lo := nth 0%Re cs i.-1 in
  let c_hi := nth 0%Re cs i in
  let x_lo := nth 0%Re xs i.-1 in
  let x_hi := nth 0%Re xs i in
  ((x_hi - x_lo) / (c_hi - c_lo) * (p - c_lo) + x_lo)%Re.

(** The right sum of a list of reals. *)
Definition sumR (s : seq R) : R := foldr Rplus 0%Re s.

(** A table of cumulative probabilities the quantile interpolant is well
    behaved on: at least two entries in non-decreasing order, from 0 to 1,
    the second above 0 and the one before the last below 1. *)
Record well_formed_cdf (cs : seq R) : Prop := WellFormedCdf {
  cdf_size : (2 <= size cs)%N;
  cdf_sorted : sorted Rle_b cs;
  cdf_head : head 0%Re cs = 0%Re;
  cdf_last : last 0%Re cs = 1%Re;
  cdf_second : (0 < nth 0 cs 1)%Re;
  cdf_penultimate : (nth 0 cs (size cs).-2 < 1)%Re
}.


(** ** Sampling

    [np.random] draws from a process-wide generator: a draw takes the state
    of the generator and returns the value with the next state.  The two
    elementary draws, a standard uniform and a standard normal one, are
    parameters; numpy's [size] argument is modelled on top of them. *)

(** What a sampling call returns: a scalar, or an array. *)
Inductive sample (A : Type) : Type :=
| Scalar (v : A)
| Array (vs : seq A).

Arguments Scalar {A} v.
Arguments Array {A} vs.

Definition sample_map {A B : Type} (f : A -> B) (s : sample A) : sample B :=
  match s with
  | Scalar v => Scalar (f v)
  | Array vs => Array (map f vs)
  end.

Definition sample_values {A : Type} (s : sample A) : seq A :=
  match s with
  | Scalar v => [:: v]
  | Array vs => vs
  end.

Section Sampling.

Variable rng : Type.
Variable draw_uniform : rng -> R * rng.
Variable draw_normal : rng -> R * rng.

Fixpoint draws (draw : rng -> R * rng) (n : nat) (g : rng) : seq R * rng :=
  match n with
  | 0%N => ([::], g)
  | n'.+1 =>
      let (v, g1) := draw g in
      let (vs, g2) := draws draw n' g1 in
      (v :: vs, g2)
  end.

(** The shape numpy gives to a draw: one value without [size], an array of
    [size] values with it. *)
Definition sized (draw : rng -> R * rng) (size : option nat) (g : rng)
  : sample R * rng :=
  match size with
  | None => let (v, g') := draw g in (Scalar v, g')
  | Some n => let (vs, g') := draws draw n g in (Array vs, g')
  end.

(** [np.random.uniform(low, high, size)] *)
Definition np_random_uniform (low high : R) (size : option nat) (g : rng)
  : sample R * rng :=
  let (s, g') := sized draw_uniform size g in
  (sample_map (fun u => low + (high - low) * u)%Re s, g').

(** [np.random.normal(loc, scale, size)]; numpy rejects a negative
    [scale]. *)
Definition np_random_normal (loc scale : R) (size : option nat) (g : rng)
  : result (sample R * rng) :=
  if Rlt_b scale 0 then Raise (ValueError "scale < 0")
  else
    let (s, g') := sized draw_normal size g in
    Ok (sample_map (fun z => loc + scale * z)%Re s, g').

(** [interp1d.__call__] on a scalar or an array: the bounds of all values
    are checked first. *)
Definition interp1d_call_sample (f : interp1d) (s : sample R)
  : result (sample fval) :=
  let below v := flt (Fin v) (head NaN (ix f)) in
  let above v := flt (last NaN (ix f)) (Fin v) in
  if bounds_error f && has below (sample_values s) then
    Raise (ValueError "A value in x_new is below the interpolation range.")
  else if bounds_error f && has above (sample_values s) then
    Raise (ValueError "A value in x_new is above the interpolation range.")
  else
    Ok (sample_map (fun v => if below v || above v then fill_value f
                             else call_linear f (Fin v)) s).

(** [DeltaDistribution.get_random] *)
Definition delta_get_random (central : pyval) (size : option nat)
  : sample R :=
  match size with
  | None => Scalar (to_R central)
  | Some n => Array [seq (to_R central * one)%Re | one <- nseq n 1%Re]
  end.

(** [AsymmetricNormalDistribution.get_random]: the parameter [size] is not
    used in the body. *)
Definition asymmetric_get_random (central : pyval)
  (right_deviation left_deviation : R) (size : option nat) (g : rng)
  : result (sample R * rng) :=
  let (r, g1) := draw_uniform g in
  if (right_deviation + left_deviation)%Re == 0%Re then
    Raise (ZeroDivisionError "float division by zero")
  else
    let a := Rabs (left_deviation / (right_deviation + left_deviation)) in
    if Rlt_b a r then
      x <- np_random_normal 0 right_deviation None g1 ;;
      Ok (sample_map (fun x => to_R central + Rabs x)%Re x.1, x.2)
    else
      x <- np_random_normal 0 left_deviation None g1 ;;
      Ok (sample_map (fun x => to_R central - Rabs x)%Re x.1, x.2).

(** [HalfNormalDistribution.get_random] *)
Definition halfnormal_get_random (central : pyval) (standard_deviation : R)
  (size : option nat) (g : rng) : result (sample R * rng) :=
  x <- np_random_normal 0 (Rabs standard_deviation) size g ;;
  Ok (sample_map (fun x => to_R central
                           + np_sign standard_deviation * Rabs x)%Re x.1,
      x.2).

(** [get_random], by class; the values are float64. *)
Definition get_random (d : dist) (size : option nat) (g : rng)
  : result (sample fval * rng) :=
  match d with
  | UniformDistribution c h =>
      let range := uniform_range c h in
      let (s, g') := np_random_uniform range.1 range.2 size g in
      Ok (sample_map Fin s, g')
  | DeltaDistribution c => Ok (sample_map Fin (delta_get_random c size), g)
  | NormalDistribution c s =>
      x <- np_random_normal (to_R c) s size g ;;
      Ok (sample_map Fin x.1, x.2)
  | AsymmetricNormalDistribution c r l =>
      x <- asymmetric_get_random c r l size g ;;
      Ok (sample_map Fin x.1, x.2)
  | HalfNormalDistribution c s =>
      x <- halfnormal_get_random c s size g ;;
      Ok (sample_map Fin x.1, x.2)
  | GaussianUpperLimit c s _ _ =>
      x <- halfnormal_get_random c s size g ;;
      Ok (sample_map Fin x.1, x.2)
  | NumericalDistribution _ _ ppf =>
      let (r, g') := np_random_uniform 0 1 size g in
      vs <- interp1d_call_sample ppf r ;; Ok (vs, g')
  end.

(** The shape the contract asks for: an array of [n] values for [size=n],
    one scalar without [size]. *)
Definition has_shape {A : Type} (size : option nat) (s : sample A) : Prop :=
  match size, s with
  | None, Scalar _ => True
  | Some n, Array vs => seq.size vs = n
  | _, _ => False
  end.

End Sampling.

(** ** MultivariateNormalDistribution

    Vectors are MathComp row vectors and the covariance a square matrix,
    both over [R]. *)

Section Multivariate.

Local Open Scope ring_scope.

Variable n : nat.

(** The quadratic form of a matrix takes positive values. *)
Definition positive_form (A : 'M[R]_n) : Prop :=
  forall v : 'rV[R]_n, v != 0%R -> (0 < (v *m A *m v^T) 0%R 0%R)%Re.

(** A symmetric positive-definite matrix. *)
Definition posdef (A : 'M[R]_n) : Prop := A^T = A /\ positive_form A.

(** An instance; the constructor asserts that all eigenvalues of the
    covariance are positive, which for a symmetric matrix is [posdef]. *)
Record MultivariateNormal : Type := MultivariateNormalDistribution {
  mv_central_value : 'rV[R]_n;
  covariance : 'M[R]_n
}.

(** The multivariate normal log-density, as the textbooks write it:
    [-(n log(2 pi) + log det cov + (x - mean) cov^-1 (x - mean)^T) / 2]. *)
Definition mahalanobis (cov : 'M[R]_n) (v : 'rV[R]_n) : R :=
  (v *m invmx cov *m v^T) 0%R 0%R.

Definition mvn_log_density (mean : 'rV[R]_n) (cov : 'M[R]_n)
  (x : 'rV[R]_n) : R :=
  (- (INR n * ln (2 * PI) + ln (\det cov) + mahalanobis cov (x - mean)%R)
   / 2)%Re.

(** [scipy.stats.multivariate_normal.logpdf(x, mean, cov)]: scipy raises
    unless the covariance is symmetric positive definite. *)
Definition multivariate_normal_logpdf (x mean : 'rV[R]_n) (cov : 'M[R]_n)
  : result R :=
  if excluded_middle_informative (posdef cov) then
    Ok (mvn_log_density mean cov x)
  else Raise (ValueError "the input matrix must be positive definite").

(** [np.sqrt(np.diag(covariance))] *)
Definition np_sqrt_diag (cov : 'M[R]_n) : 'rV[R]_n :=
  \row_i sqrt (cov i i).

(** [np.outer(err, err)] *)
Definition np_outer (u v : 'rV[R]_n) : 'M[R]_n :=
  \matrix_(i, j) (u 0%R i * v 0%R j)%Re.

(** Elementwise division of arrays of the same shape. *)
Definition np_divide {m : nat} (A B : 'M[R]_(m, n)) : 'M[R]_(m, n) :=
  \matrix_(i, j) (A i j / B i j)%Re.

(** [MultivariateNormalDistribution.logpdf] *)
Definition multivariate_logpdf (d : MultivariateNormal) (x : 'rV[R]_n)
  : result R :=
  let err := np_sqrt_diag (covariance d) in
  let scale_matrix := np_outer err err in
  pdf_scaled <- multivariate_normal_logpdf
                  (np_divide x err) (np_divide (mv_central_value d) err)
                  (np_divide (covariance d) scale_matrix) ;;
  l <- math_log (\det (np_divide (covariance d) scale_matrix)
                 / \det (covariance d))%Re ;;
  Ok (pdf_scaled + l / 2)%Re.

End Multivariate.

(** A covariance with the variances 1 and 1e6 on its diagonal. *)
Definition unequal_variances : 'rV[R]_2 :=
  (\row_j (if j == 0 then 1%Re else 1000000%Re))%R.


Definition two_deltas : seq obj :=
  [:: Obj 0 (DeltaDistribution (PyFloat 3));
      Obj 1 (DeltaDistribution (PyFloat 3))].


Definition normal5_uniform5_normal6 : seq obj :=
  [:: Obj 0 (NormalDistribution (PyFloat 5) 1);
      Obj 1 (UniformDistribution (PyFloat 5) 2);
      Obj 2 (NormalDistribution (PyFloat 6) 1)].


(** The class whose density is a table rather than a closed form. *)
Definition is_numerical (d : dist) : bool :=
  if d is NumericalDistribution _ _ _ then true else false.

(** ** Predicates for the further properties *)

(** The lists [combine_distributions] answers without an exception. *)
Definition combinable (pds : seq obj) : bool :=
  match pds with
  | [::] => false
  | [:: _] => true
  | first :: _ =>
      [&& is_float (central_value (val first)),
          all (fun pd => ~~ differs_from first pd) pds
        & all delta_or_normal pds]
  end.

(** The answer for a list of two or more distributions. *)
Definition combined (first : obj) (pds : seq obj) : dist :=
  NormalDistribution (central_value (val first))
    (sqrt (sum_of_squares (normal_deviations pds))).

(** The parameters for which a class with a closed-form density has a
    proper, single-peaked density.  A Uniform distribution is left out: its
    [logpdf] is 0 outside the interval. *)
Definition proper (d : dist) : Prop :=
  match d with
  | DeltaDistribution _ => True
  | NormalDistribution _ s => (0 < s)%Re
  | AsymmetricNormalDistribution _ r l => (0 < r)%Re /\ (0 < l)%Re
  | HalfNormalDistribution _ s => s <> 0%Re
  | GaussianUpperLimit _ s _ _ => s <> 0%Re
  | _ => False
  end.

(** Every value of a sample has the property [P]. *)
Definition sample_all {A : Type} (P : A -> Prop) (s : sample A) : Prop :=
  forall v, List.In v (sample_values s) -> P v.


(** The classes whose [get_random] hands [size] on to numpy; numpy wants
    a standard deviation that is not negative. *)
Definition passes_size (d : dist) : Prop :=
  match d with
  | UniformDistribution _ _ | DeltaDistribution _ => True
  | HalfNormalDistribution _ _ | GaussianUpperLimit _ _ _ _ => True
  | NormalDistribution _ s => (0 <= s)%Re
  | _ => False
  end.

(** Further examples: lists to combine, and a generator that always draws
    the same values. *)
Definition delta_then_normal : seq obj :=
  [:: Obj 0 (DeltaDistribution (PyFloat 3));
      Obj 1 (NormalDistribution (PyFloat 3) (1 / 2)%Re)].



Definition constant_uniform (g : nat) : R * nat := ((1 / 2)%Re, g.+1).
Definition constant_normal (g : nat) : R * nat := (0%Re, g.+1).

(** * Theorems *)

(** ** The combiner *)

Section Combiner.

Local Open Scope R_scope.

Lemma py_sum_from (a : R) (s : seq R) : foldl Rplus a s = a + py_sum s.
Proof.
rewrite /py_sum; elim: s a => [|x s IH] a /=; first by lra.
by rewrite IH (IH (0 + x)); lra.
Qed.

Lemma py_sum_squares (s : seq R) :
  py_sum [seq x ^ 2 | x <- s] = sum_of_squares s.
Proof.
elim: s => [|x s IH] //=.
by rewrite /py_sum /= py_sum_from IH; lra.
Qed.

Lemma sum_of_squares_ge0 (s : seq R) : 0 <= sum_of_squares s.
Proof.
elim: s => [|x s IH] /=; first by lra.
by have := pow2_ge_0 x; lra.
Qed.

Lemma math_sqrt_ge0 (x : R) : 0 <= x -> math_sqrt x = Ok (sqrt x).
Proof. by move=> Hx; rewrite /math_sqrt; case: (Rlt_dec x 0) => // Hlt; lra. Qed.

Lemma py_ne_refl (v : pyval) : py_ne v v = false.
Proof. by rewrite /py_ne eqxx. Qed.

Lemma has_central_ne (c : R) (pd : obj) :
  has_central c pd -> py_ne (central_value (val pd)) (PyFloat c) = false.
Proof.
rewrite /has_central /py_ne; case: (central_value _) => //= r /eqP ->.
by rewrite eqxx.
Qed.

Lemma has_central_eq (c : R) (pd : obj) :
  has_central c pd -> central_value (val pd) = PyFloat c.
Proof.
by rewrite /has_central; case: (central_value _) => //= r /eqP ->.
Qed.

(** The loop on inputs it accepts: the Normal elements are appended, in
    order. *)
Lemma combine_loop_ok (c : pyval) (pds gaussians : seq obj) :
  all (fun pd => ~~ py_ne (central_value (val pd)) c) pds ->
  all delta_or_normal pds ->
  combine_loop c pds gaussians = Ok (gaussians ++ filter is_normal pds).
Proof.
elim: pds gaussians => [|pd pds IH] g /=; first by rewrite cats0.
move=> /andP [/negbTE -> Hc] /andP [Hk Hks].
move: Hk; rewrite /delta_or_normal /is_delta /is_normal.
case: (val pd) => //= *; first exact: IH.
by rewrite IH // cat_rcons.
Qed.

Lemma mapM_squares (g : seq obj) :
  all is_normal g ->
  mapM (fun pd => s <- standard_deviation (val pd) ;; Ok (s ^ 2)) g
  = Ok [seq x ^ 2 | x <- normal_deviations g].
Proof.
elim: g => [|pd g IH] //=; rewrite /is_normal => /andP [Hn Hg].
by move: Hn; case: (val pd) => //= c s _; rewrite IH.
Qed.

Lemma normal_deviations_filter (pds : seq obj) :
  normal_deviations (filter is_normal pds) = normal_deviations pds.
Proof.
elim: pds => [|pd pds IH] //=; rewrite /is_normal /normal_deviations.
by case E: (val pd) => [| |c s| | | |] //=; rewrite ?E /= -/(normal_deviations _) IH.
Qed.

Lemma combine_distributions_accepts (c : R) (pds : seq obj) (next : nat) :
  size pds <> 1%N -> pds <> [::] ->
  all (has_central c) pds -> all delta_or_normal pds ->
  combine_distributions pds next =
  Ok (Obj next (NormalDistribution (PyFloat c)
                  (sqrt (sum_of_squares (normal_deviations pds)))),
      next.+1).
Proof.
case: pds => [|pd rest] // Hsz _ Hc Hk.
rewrite /combine_distributions; case: eqP => // _.
rewrite [getitem0 _]/= /bind.
have Hpd : central_value (val pd) = PyFloat c.
  by apply: has_central_eq; case/andP: Hc.
have Hl : combine_loop (PyFloat c) (pd :: rest) [::]
          = Ok (filter is_normal (pd :: rest)).
  rewrite combine_loop_ok //.
  by apply: sub_all Hc => x /has_central_ne ->.
rewrite Hpd [is_float _]/= [~~ _]/= Hl /bind.
rewrite mapM_squares ?filter_all // normal_deviations_filter.
by rewrite py_sum_squares math_sqrt_ge0 //; exact: sum_of_squares_ge0.
Qed.



(** C10: two or more Delta distributions that share the float central value
    [c] are combined without error into a new Normal distribution with
    central value [c] and standard deviation 0: neither the combiner nor the
    constructor of [NormalDistribution], which checks nothing, rejects the
    zero. *)
Theorem combine_distributions_deltas (c : R) (pds : seq obj) (next : nat) :
  (2 <= size pds)%N -> all (has_central c) pds -> all is_delta pds ->
  combine_distributions pds next =
  Ok (new (NormalDistribution (PyFloat c) 0) next).
Proof.
move=> Hsz Hc Hd.
have Hn : normal_deviations pds = [::].
  elim: pds Hd {Hsz Hc} => [|pd pds IH] //=; rewrite /is_delta.
  by case: (val pd) => //= _ /IH.
rewrite (@combine_distributions_accepts c) ?Hn /= ?sqrt_0 //.
- by move=> E; rewrite E in Hsz.
- by move=> E; rewrite E in Hsz.
- by apply: sub_all Hd => pd; rewrite /delta_or_normal => ->.
Qed.

Lemma combine_distributions_deltas_witness :
  combine_distributions two_deltas 2 =
  Ok (Obj 2 (NormalDistribution (PyFloat 3) 0), 3%N).
Proof.
apply: (@combine_distributions_deltas 3 two_deltas 2) => //.
by rewrite /two_deltas /= /has_central /= eqxx.
Defined.




Lemma combine_distributions_unfold (first : obj) (rest : seq obj)
  (next : nat) :
  rest <> [::] -> is_float (central_value (val first)) ->
  combine_distributions (first :: rest) next =
  (gaussians <- combine_loop (central_value (val first)) (first :: rest) [::] ;;
   squares <- mapM (fun pd => s <- standard_deviation (val pd) ;;
                              Ok (s ^ 2)) gaussians ;;
   s <- math_sqrt (py_sum squares) ;;
   Ok (new (NormalDistribution (central_value (val first)) s) next)).
Proof.
case: rest => [|pd rest] // _ Hf.
by rewrite /combine_distributions [size _ == _]/= [getitem0 _]/= /bind Hf.
Qed.



(** The error is the one of the first element the loop rejects: here a
    central value differs, but the Uniform element comes first. *)
Lemma combine_distributions_first_offender :
  combine_distributions normal5_uniform5_normal6 3 =
  Raise unsupported_operation_error.
Proof.
by rewrite /combine_distributions /= /py_ne /= eqxx.
Qed.



End Combiner.

(** ** Densities of the primitive distributions *)

Section Densities.

Local Open Scope R_scope.

Lemma Rlt_bP (x y : R) : reflect (x < y) (Rlt_b x y).
Proof. by rewrite /Rlt_b; case: (Rlt_dec x y) => H; constructor. Qed.

Lemma Rle_bP (x y : R) : reflect (x <= y) (Rle_b x y).
Proof. by rewrite /Rle_b; case: (Rle_dec x y) => H; constructor. Qed.

Lemma Rlt_b_true (x y : R) : x < y -> Rlt_b x y = true.
Proof. by move/Rlt_bP. Qed.

Lemma Rlt_b_false (x y : R) : y <= x -> Rlt_b x y = false.
Proof. by move=> H; apply/Rlt_bP; lra. Qed.

Lemma Rle_b_true (x y : R) : x <= y -> Rle_b x y = true.
Proof. by move/Rle_bP. Qed.

Lemma Rle_b_false (x y : R) : y < x -> Rle_b x y = false.
Proof. by move=> H; apply/Rle_bP; lra. Qed.

Lemma eqr_false (x y : R) : x <> y -> (x == y) = false.
Proof. by move=> H; apply/eqP. Qed.

Lemma math_log_pos (x : R) : 0 < x -> math_log x = Ok (ln x).
Proof. by move=> Hx; rewrite /math_log; case: (Rlt_dec 0 x). Qed.

Lemma sqrt_2PI_gt0 : 0 < sqrt (2 * PI).
Proof. by apply: sqrt_lt_R0; have := PI_RGT_0; lra. Qed.

Lemma gaussian_density_gt0 (c s x : R) : 0 < s -> 0 < gaussian_density c s x.
Proof.
move=> Hs; rewrite /gaussian_density; apply: Rdiv_lt_0_compat.
  exact: exp_pos.
by apply: Rmult_lt_0_compat => //; exact: sqrt_2PI_gt0.
Qed.

(** scipy's formula is the logarithm of the textbook density. *)
Lemma norm_logpdf_gaussian (c s x : R) :
  0 < s -> norm_logpdf x c s = Fin (gaussian_log_density c s x).
Proof.
move=> Hs; rewrite /norm_logpdf Rlt_b_true //; congr Fin.
rewrite /gaussian_log_density /gaussian_density /Rdiv.
have Hq := sqrt_2PI_gt0.
have Hsq : 0 < s * sqrt (2 * PI) by exact: Rmult_lt_0_compat.
have Hinv : 0 < / (s * sqrt (2 * PI)) by exact: Rinv_0_lt_compat.
have Hexp := exp_pos (- (x - c) ^ 2 * / (2 * s ^ 2)).
rewrite (ln_mult _ _ Hexp Hinv) ln_exp (ln_Rinv _ Hsq) (ln_mult _ _ Hs Hq).
by field; lra.
Qed.

Lemma norm_pdf_gaussian (c s x : R) :
  0 < s -> norm_pdf x c s = Fin (gaussian_density c s x).
Proof.
move=> Hs; rewrite /norm_pdf Rlt_b_true //; congr Fin.
rewrite /gaussian_density.
have Hq := sqrt_2PI_gt0.
have -> : - ((x - c) / s) ^ 2 / 2 = - (x - c) ^ 2 / (2 * s ^ 2).
  by field; lra.
by field; lra.
Qed.

(** C5: for a positive half range [h], the Uniform [logpdf] is
    [- log (2 h)] on the half-open interval from [c - h] to [c + h] and 0,
    not minus infinity, outside of it; the right end point [c + h] is
    outside. *)
Theorem uniform_logpdf_spec (c : pyval) (h x : R) :
  0 < h ->
  (to_R c - h <= x < to_R c + h ->
   logpdf (UniformDistribution c h) x = Ok (Fin (- ln (2 * h))))
  /\ (~ (to_R c - h <= x < to_R c + h) ->
      logpdf (UniformDistribution c h) x = Ok (Fin 0))
  /\ logpdf (UniformDistribution c h) (to_R c + h) = Ok (Fin 0).
Proof.
move=> Hh; rewrite /logpdf /uniform_logpdf /uniform_range /=.
split; [|split].
- move=> [Hlo Hhi]; rewrite Rlt_b_false // Rle_b_false //=.
  by rewrite math_log_pos //; lra.
- move=> Hout; case: (Rlt_bP x _) => //= Hlo.
  by rewrite Rle_b_true //; lra.
- by rewrite Rle_b_true ?orbT //; lra.
Qed.

Lemma uniform_logpdf_spec_witness :
  logpdf (UniformDistribution (PyFloat 0) 1) 1 = Ok (Fin 0).
Proof.
have H : 0 < 1 by lra.
have [_ [_ E]] := uniform_logpdf_spec (PyFloat 0) 0 H.
by move: E; rewrite /= Rplus_0_l.
Defined.

Lemma np_sign_pos (s : R) : 0 < s -> np_sign s = 1.
Proof. by move=> H; rewrite /np_sign Rlt_b_true. Qed.

Lemma np_sign_neg (s : R) : s < 0 -> np_sign s = -1.
Proof. by move=> H; rewrite /np_sign Rlt_b_false ?Rlt_b_true //; lra. Qed.

Lemma halfnormal_logpdf_empty_side (c : pyval) (s x : R) :
  (0 < s /\ x < to_R c) \/ (s < 0 /\ to_R c < x) ->
  halfnormal_logpdf c s x = Ok NegInf.
Proof.
rewrite /halfnormal_logpdf; case=> [[Hs Hx]|[Hs Hx]].
- by rewrite np_sign_pos // Rlt_b_true //; lra.
- by rewrite np_sign_neg // Rlt_b_true //; lra.
Qed.

Lemma halfnormal_logpdf_populated_side (c : pyval) (s x : R) :
  (0 < s /\ to_R c <= x) \/ (s < 0 /\ x <= to_R c) ->
  halfnormal_logpdf c s x =
  Ok (Fin (ln 2 + gaussian_log_density (to_R c) (Rabs s) x)).
Proof.
rewrite /halfnormal_logpdf => H.
have Habs : 0 < Rabs s by apply: Rabs_pos_lt; case: H => [[]|[]]; lra.
have -> : Rlt_b (np_sign s * (x - to_R c)) 0 = false.
  case: H => [[Hs Hx]|[Hs Hx]].
  - by rewrite np_sign_pos // Rlt_b_false //; lra.
  - by rewrite np_sign_neg // Rlt_b_false //; lra.
by rewrite math_log_pos ?norm_logpdf_gaussian //; lra.
Qed.

(** C7: for a non-zero deviation [s], the HalfNormal [logpdf] is minus
    infinity strictly on the side of [c] opposite the sign of [s], and on
    the populated side, [c] included, it is [log 2] plus the log-density of
    the Normal distribution with mean [c] and deviation [|s|]; and for a
    confidence level in [0, 1], [GaussianUpperLimit(limit, cl)] is a
    HalfNormal distribution with central value 0 and standard deviation
    [limit * ppf(0.5 + cl/2)], whose [logpdf] is the HalfNormal one. *)
Theorem halfnormal_logpdf_spec (c : pyval) (s x : R) (norm_ppf : R -> R)
  (limit cl : R) :
  s <> 0 -> 0 <= cl <= 1 ->
  ((0 < s /\ x < to_R c) \/ (s < 0 /\ to_R c < x) ->
   logpdf (HalfNormalDistribution c s) x = Ok NegInf)
  /\ ((0 < s /\ to_R c <= x) \/ (s < 0 /\ x <= to_R c) ->
      logpdf (HalfNormalDistribution c s) x =
      Ok (Fin (ln 2 + gaussian_log_density (to_R c) (Rabs s) x)))
  /\ GaussianUpperLimit_init norm_ppf limit cl =
     Ok (GaussianUpperLimit (PyInt 0) (limit * norm_ppf (1 / 2 + cl / 2))
           limit cl)
  /\ (forall d, GaussianUpperLimit_init norm_ppf limit cl = Ok d ->
      central_value d = PyInt 0 /\
      standard_deviation d = Ok (limit * norm_ppf (1 / 2 + cl / 2)) /\
      forall y, logpdf d y =
                logpdf (HalfNormalDistribution (PyInt 0)
                          (limit * norm_ppf (1 / 2 + cl / 2))) y).
Proof.
move=> Hs [Hcl0 Hcl1].
have Hinit : GaussianUpperLimit_init norm_ppf limit cl =
     Ok (GaussianUpperLimit (PyInt 0) (limit * norm_ppf (1 / 2 + cl / 2))
           limit cl).
  by rewrite /GaussianUpperLimit_init !Rlt_b_false.
split; first exact: halfnormal_logpdf_empty_side.
split; first exact: halfnormal_logpdf_populated_side.
by split=> // d; rewrite Hinit => -[<-].
Qed.

Lemma halfnormal_logpdf_spec_witness :
  logpdf (HalfNormalDistribution (PyFloat 0) 1) (-1) = Ok NegInf.
Proof.
have Hs : 1 <> 0 by lra.
have Hcl : 0 <= 9 / 10 <= 1 by lra.
have [H _] := halfnormal_logpdf_spec (PyFloat 0) (-1) (fun p => p) 1 Hs Hcl.
by apply: H; left => /=; lra.
Defined.

(** The scale factor of one side of the two-piece Gaussian. *)
Lemma asymmetric_factor_gt0 (p q : R) : 0 < p -> 0 < q -> 0 < 2 * p / (q + p).
Proof.
move=> Hp Hq; apply: Rdiv_lt_0_compat; lra.
Qed.

Lemma asymmetric_factor (c r l : R) (p q : R) :
  0 < p -> 0 < q ->
  math_log_f (fdiv (fmul (Fin 2) (Fin p)) (fadd (Fin q) (Fin p)))
  = Ok (Fin (ln (2 * p / (q + p)))).
Proof.
move=> Hp Hq; have Hne : q + p <> 0 by lra.
by rewrite /= (eqr_false Hne) /= math_log_pos //; exact: asymmetric_factor_gt0.
Qed.

Lemma asymmetric_logpdf_left (c : pyval) (r l x : R) :
  0 < r -> 0 < l -> x < to_R c ->
  asymmetric_logpdf c r l x =
  Ok (Fin (ln (2 * gaussian_density (to_R c) r (to_R c)
               / (gaussian_density (to_R c) l (to_R c)
                  + gaussian_density (to_R c) r (to_R c)))
           + gaussian_log_density (to_R c) l x)).
Proof.
move=> Hr Hl Hx; rewrite /asymmetric_logpdf Rlt_b_true //.
rewrite !norm_pdf_gaussian // norm_logpdf_gaussian //.
by rewrite (asymmetric_factor (to_R c) r l) //; exact: gaussian_density_gt0.
Qed.

Lemma asymmetric_logpdf_right (c : pyval) (r l x : R) :
  0 < r -> 0 < l -> to_R c <= x ->
  asymmetric_logpdf c r l x =
  Ok (Fin (ln (2 * gaussian_density (to_R c) l (to_R c)
               / (gaussian_density (to_R c) l (to_R c)
                  + gaussian_density (to_R c) r (to_R c)))
           + gaussian_log_density (to_R c) r x)).
Proof.
move=> Hr Hl Hx; rewrite /asymmetric_logpdf Rlt_b_false //.
rewrite !norm_pdf_gaussian // norm_logpdf_gaussian //.
set pl := gaussian_density _ l _; set pr := gaussian_density _ r _.
have Hpl : 0 < pl by exact: gaussian_density_gt0.
have Hpr : 0 < pr by exact: gaussian_density_gt0.
rewrite [fadd (Fin pl) (Fin pr)]/= (Rplus_comm pl pr).
by rewrite (asymmetric_factor (to_R c) r l).
Qed.




Lemma halfnormal_logpdf_returns (c : pyval) (s x : R) :
  exists v, halfnormal_logpdf c s x = Ok v.
Proof.
have H2 : 0 < 2 by lra.
rewrite /halfnormal_logpdf; case: ifP => _; first by eexists.
by rewrite (math_log_pos H2); eexists.
Qed.

Lemma asymmetric_logpdf_returns (c : pyval) (r l x : R) :
  exists v, asymmetric_logpdf c r l x = Ok v.
Proof.
case: (Rlt_bP 0 r) => Hr; last first.
  have Er : Rlt_b 0 r = false by apply/Rlt_bP.
  rewrite /asymmetric_logpdf /norm_pdf Er.
  by case: (Rlt_b 0 l); case: (Rlt_b x _) => /=; eexists.
case: (Rlt_bP 0 l) => Hl; last first.
  have El : Rlt_b 0 l = false by apply/Rlt_bP.
  rewrite /asymmetric_logpdf /norm_pdf El.
  by case: (Rlt_b 0 r); case: (Rlt_b x _) => /=; eexists.
case: (Rlt_bP x (to_R c)) => Hx.
- by rewrite (asymmetric_logpdf_left Hr Hl Hx); eexists.
- have Hx' : to_R c <= x by lra.
  by rewrite (asymmetric_logpdf_right Hr Hl Hx'); eexists.
Qed.

(** Every class with a closed-form density answers [logpdf] with a value,
    for all parameters and every real [x]. *)
Lemma logpdf_closed_form_returns (d : dist) (x : R) :
  ~~ is_numerical d -> exists v, logpdf d x = Ok v.
Proof.
case: d => [c h|c|c s|c r l|c s|c s lim cl|c f g] //= _.
- rewrite /uniform_logpdf /uniform_range /=.
  case: (Rlt_bP x _) => /= H1; first by eexists.
  case: (Rle_bP _ x) => /= H2; first by eexists.
  have Hh : 0 < 2 * h by lra.
  by rewrite (math_log_pos Hh); eexists.
- by rewrite /delta_logpdf; case: (x == _); eexists.
- by eexists.
- exact: asymmetric_logpdf_returns.
- exact: halfnormal_logpdf_returns.
- exact: halfnormal_logpdf_returns.
Qed.



End Densities.

(** ** Interpolation tables *)

Section Interpolation.

Local Open Scope R_scope.

Lemma np_le_Fin (a b : R) : np_le (Fin a) (Fin b) = Rle_b a b.
Proof.
rewrite /np_le /=; case: (Rle_bP a b) => H.
- by rewrite Rlt_b_false.
- by rewrite Rlt_b_true //; lra.
Qed.

Lemma np_lt_Fin (a b : R) : np_lt (Fin a) (Fin b) = Rlt_b a b.
Proof. by []. Qed.

Lemma Rle_b_trans : transitive Rle_b.
Proof. by move=> b a c /Rle_bP H1 /Rle_bP H2; apply/Rle_bP; lra. Qed.

Lemma Rlt_b_trans : transitive Rlt_b.
Proof. by move=> b a c /Rlt_bP H1 /Rlt_bP H2; apply/Rlt_bP; lra. Qed.

Lemma Rlt_le_b (a b : R) : Rlt_b a b -> Rle_b a b.
Proof. by move=> /Rlt_bP H; apply/Rle_bP; lra. Qed.

Lemma np_le_trans : transitive np_le.
Proof.
move=> [b| | |] [a| | |] [c| | |] //=; rewrite /np_le /=.
by move=> /Rlt_bP H1 /Rlt_bP H2; apply/Rlt_bP; lra.
Qed.

(** Sorting changes nothing in a table whose finite abscissas are already
    in order. *)
Lemma sort_table_sorted (keys : seq R) (vals : seq fval) :
  size keys = size vals -> sorted Rle_b keys ->
  sort (fun p q : fval * fval => np_le p.1 q.1) (zip (map Fin keys) vals)
  = zip (map Fin keys) vals.
Proof.
move=> Hsz Hs; apply: sorted_sort.
  by move=> q p r; exact: np_le_trans.
have -> : sorted (fun p q : fval * fval => np_le p.1 q.1)
            (zip (map Fin keys) vals)
          = sorted np_le (unzip1 (zip (map Fin keys) vals)).
  by rewrite /unzip1 sorted_map.
rewrite unzip1_zip ?size_map ?Hsz // sorted_map.
by apply: sub_sorted Hs => a b; rewrite /= np_le_Fin.
Qed.

Lemma interp1d_init_sorted (keys : seq R) (vals : seq fval) (fill : fval)
  (bounds : bool) :
  size keys = size vals -> (2 <= size keys)%N -> sorted Rle_b keys ->
  interp1d_init (map Fin keys) vals fill bounds
  = Ok (Interp1d (map Fin keys) vals fill bounds).
Proof.
move=> Hsz H2 Hs; rewrite /interp1d_init size_map Hsz eqxx /=.
rewrite ltnNge -Hsz H2 /= sort_table_sorted //.
by rewrite unzip1_zip ?unzip2_zip ?size_map ?Hsz.
Qed.

Lemma interp1d_init_ok (x y : seq fval) (fill : fval) (bounds : bool) :
  size x = size y -> (2 <= size x)%N ->
  exists f, interp1d_init x y fill bounds = Ok f /\ bounds_error f = bounds.
Proof.
move=> Hsz H2; rewrite /interp1d_init Hsz eqxx /= ltnNge -Hsz H2 /=.
by eexists; split.
Qed.

Lemma argmax_from_lt (best : R) (ibest i : nat) (s : seq R) :
  (ibest < i)%N -> (argmax_from best ibest i s < i + size s)%N.
Proof.
elim: s best ibest i => [|a s IH] best ibest i Hi /=.
  by rewrite addn0.
by rewrite addnS -addSn; case: (Rlt_b best a); apply: IH => //; exact: ltnW.
Qed.

Lemma mode_ok (x y : seq R) :
  size y = size x -> (0 < size x)%N ->
  exists m, (i <- np_argmax y ;; mode <- getitem x i ;; Ok (PyFloat mode))
            = Ok (PyFloat m).
Proof.
case: y => [|a y] Hsz Hx; first by rewrite -Hsz in Hx.
rewrite /= /getitem -Hsz /=.
have /= -> := @argmax_from_lt a 0 1 y isT.
by eexists.
Qed.

Lemma size_cumsum_from (acc : fval) (s : seq fval) :
  size (cumsum_from acc s) = size s.
Proof. by elim: s acc => [|a s IH] acc //=; rewrite IH. Qed.

Lemma size_np_cumsum (s : seq fval) : size (np_cumsum s) = size s.
Proof. by case: s => [|a s] //=; rewrite size_cumsum_from. Qed.

Lemma cdf_table_ok (y : seq R) (x_range : R) :
  (0 < size y)%N ->
  exists cdf, cdf_table y x_range = Ok cdf /\ size cdf = size y.
Proof.
rewrite /cdf_table => Hy.
set cdf := [seq _ | c <- _].
have : size cdf = size y by rewrite /cdf size_map size_np_cumsum size_map.
case: cdf => [|c0 cdf] /= Hsz; first by rewrite -Hsz in Hy.
by eexists; split=> //; rewrite size_rcons size_belast.
Qed.

Lemma head_map_Fin (s : seq R) :
  (0 < size s)%N -> head NaN (map Fin s) = Fin (head 0 s).
Proof. by case: s. Qed.

Lemma last_map_Fin (s : seq R) :
  (0 < size s)%N -> last NaN (map Fin s) = Fin (last 0 s).
Proof. by case: s => [|a s] //= _; rewrite last_map. Qed.

Lemma head_le_last (s : seq R) : sorted Rle_b s -> head 0 s <= last 0 s.
Proof.
case: s => [|a s] /=; first by lra.
elim: s a => [|b s IH] a /=; first by lra.
by move=> /andP [/Rle_bP Hab /IH]; lra.
Qed.

(** C4, what the source does instead: [logpdf_interp] is built with
    [fill_value=-np.inf] but without [bounds_error=False], so for every
    well-formed table the construction succeeds and [logpdf] at any point
    outside the tabulated range raises a [ValueError] rather than report
    minus infinity. *)
Theorem numerical_logpdf_outside (x y : seq R) (central : option pyval)
  (x_new : R) :
  (2 <= size x)%N -> size y = size x -> sorted Rlt_b x ->
  x_new < head 0 x \/ last 0 x < x_new ->
  exists d, NumericalDistribution_init x y central = Ok d /\
            exists msg, logpdf d x_new = Raise (ValueError msg).
Proof.
move=> H2 Hsz Hs Hout.
have Hx0 : (0 < size x)%N by exact: ltn_trans H2.
have Hle : sorted Rle_b x by apply: sub_sorted Hs; exact: Rlt_le_b.
rewrite /NumericalDistribution_init.
have [c ->] : exists c,
    match central with
    | Some c => Ok c
    | None => i <- np_argmax y ;; mode <- getitem x i ;; Ok (PyFloat mode)
    end = Ok c.
  case: central => [c|]; first by exists c.
  by have [m ->] := mode_ok Hsz Hx0; exists (PyFloat m).
have -> : getitem_last x = Ok (last 0 x) by case: x Hx0 {H2 Hsz Hs Hout Hle}.
have -> : getitem0 x = Ok (head 0 x) by case: x Hx0 {H2 Hsz Hs Hout Hle}.
have Hsz1 : size x = size (map np_log (y_norm y (last 0 x - head 0 x))).
  by rewrite size_map /y_norm size_map Hsz.
rewrite /bind (interp1d_init_sorted _ _ Hsz1 H2 Hle).
have [cdf [-> Hcdf]] : exists cdf,
    cdf_table y (last 0 x - head 0 x) = Ok cdf /\ size cdf = size y.
  by apply: cdf_table_ok; rewrite Hsz.
have [f [-> _]] := @interp1d_init_ok cdf (map Fin x) NaN true
                     (etrans Hcdf (etrans Hsz (esym (size_map Fin x))))
                     (eq_ind_r (fun n => (2 <= n)%N)
                               (eq_ind_r (fun n => (2 <= n)%N) H2 Hsz) Hcdf).
eexists; split; first by [].
rewrite /= /numerical_logpdf /interp1d_call /=.
rewrite head_map_Fin // last_map_Fin //=.
case: Hout => Ho.
- by rewrite (Rlt_b_true Ho); eexists.
- have Hge : head 0 x <= x_new by have := head_le_last Hle; lra.
  by rewrite (Rlt_b_false Hge) (Rlt_b_true Ho); eexists.
Qed.

Lemma numerical_logpdf_outside_witness :
  exists d, NumericalDistribution_init [:: 0; 1] [:: 1; 1] None = Ok d /\
            exists msg, logpdf d 2 = Raise (ValueError msg).
Proof.
apply: (@numerical_logpdf_outside [:: 0; 1] [:: 1; 1] None 2) => //.
- by rewrite /= Rlt_b_true //; lra.
- by right => /=; lra.
Defined.

End Interpolation.

(** ** The quantile table of NumericalDistribution *)

Section Quantile.

Local Open Scope R_scope.

(** One segment of a piecewise linear function. *)
Lemma segment_bounds (xl xh cl ch p : R) :
  cl < ch -> cl <= p <= ch -> xl <= xh ->
  xl <= (xh - xl) / (ch - cl) * (p - cl) + xl <= xh.
Proof.
move=> Hc [Hp1 Hp2] Hx.
have Hs : 0 <= (xh - xl) / (ch - cl).
  by apply: Rmult_le_pos; [lra | left; apply: Rinv_0_lt_compat; lra].
have E : (xh - xl) / (ch - cl) * (ch - cl) = xh - xl by field; lra.
have H1 : 0 <= (xh - xl) / (ch - cl) * (p - cl).
  by apply: Rmult_le_pos => //; lra.
have H2 : (xh - xl) / (ch - cl) * (p - cl)
          <= (xh - xl) / (ch - cl) * (ch - cl).
  by apply: Rmult_le_compat_l => //; lra.
by lra.
Qed.

Lemma segment_mono (xl xh cl ch p q : R) :
  cl < ch -> xl <= xh -> p <= q ->
  (xh - xl) / (ch - cl) * (p - cl) + xl
  <= (xh - xl) / (ch - cl) * (q - cl) + xl.
Proof.
move=> Hc Hx Hpq.
have Hs : 0 <= (xh - xl) / (ch - cl).
  by apply: Rmult_le_pos; [lra | left; apply: Rinv_0_lt_compat; lra].
have H2 : (xh - xl) / (ch - cl) * (p - cl)
          <= (xh - xl) / (ch - cl) * (q - cl).
  by apply: Rmult_le_compat_l => //; lra.
by lra.
Qed.

Lemma Rle_b_refl : reflexive Rle_b.
Proof. by move=> a; apply/Rle_bP; lra. Qed.

Lemma sorted_nth_le (s : seq R) (i j : nat) :
  sorted Rle_b s -> (i <= j)%N -> (j < size s)%N -> nth 0 s i <= nth 0 s j.
Proof.
move=> Hs Hij Hj; apply/Rle_bP.
apply: (sorted_leq_nth Rle_b_trans Rle_b_refl) => //.
by rewrite inE; exact: leq_ltn_trans Hj.
Qed.

Lemma find_Fin (cs : seq R) (p : R) :
  np_searchsorted (map Fin cs) (Fin p) = find (Rle_b p) cs.
Proof.
rewrite /np_searchsorted find_map; apply: eq_find => c /=.
case: (Rle_bP p c) => H.
- by rewrite Rlt_b_false.
- by rewrite Rlt_b_true //; lra.
Qed.

Lemma nth_map_Fin (s : seq R) (i : nat) :
  (i < size s)%N -> nth NaN (map Fin s) i = Fin (nth 0 s i).
Proof. by move=> Hi; rewrite (nth_map 0). Qed.

Lemma clip_lo (n k : nat) : (2 <= n)%N -> k = 0%N -> clip 1 n.-1 k = 1%N.
Proof.
move=> Hn ->; rewrite /clip max0n; apply/minn_idPl.
by rewrite -ltnS prednK // (ltn_trans _ Hn).
Qed.

Lemma clip_in (n k : nat) : (0 < k)%N -> (k <= n.-1)%N -> clip 1 n.-1 k = k.
Proof.
move=> Hk Hn; rewrite /clip; have /maxn_idPl -> := Hk.
exact/minn_idPl.
Qed.

Lemma find_le_last (cs : seq R) (p : R) :
  (0 < size cs)%N -> p <= last 0 cs -> (find (Rle_b p) cs <= (size cs).-1)%N.
Proof.
move=> Hn Hp; rewrite leqNgt; apply/negP => /(before_find 0).
by rewrite nth_last => /Rle_bP.
Qed.

(** The segment [call_linear] picks for a probability [p]. *)
Lemma segment_of (cs : seq R) (p : R) :
  well_formed_cdf cs -> 0 <= p <= 1 ->
  let i := clip 1 (size cs).-1 (find (Rle_b p) cs) in
  [/\ (0 < i)%N, (i < size cs)%N, nth 0 cs i.-1 <= p <= nth 0 cs i
    & nth 0 cs i.-1 < nth 0 cs i].
Proof.
move=> [Hn Hs H0 H1 Hsec Hpen] [Hp0 Hp1] /=.
have Hn0 : (0 < size cs)%N by exact: ltn_trans Hn.
have Hk : (find (Rle_b p) cs <= (size cs).-1)%N.
  by apply: find_le_last => //; rewrite H1.
have Hhas : has (Rle_b p) cs.
  by rewrite has_find; apply: leq_ltn_trans Hk _; rewrite prednK.
have Hnth := nth_find 0 Hhas.
have Hhead : nth 0 cs 0 = 0 by rewrite -H0; case: (cs) Hn0.
case E: (find (Rle_b p) cs) => [|k].
- rewrite clip_lo //=.
  move: Hnth; rewrite E Hhead => /Rle_bP Hle.
  by split=> //; lra.
- have Hk' : (k.+1 <= (size cs).-1)%N by rewrite -E.
  rewrite clip_in //=.
  have Hbefore : Rle_b p (nth 0 cs k) = false.
    by apply: before_find; rewrite E.
  move: Hnth Hbefore; rewrite E => /Rle_bP Hle /Rle_bP Hlt.
  split=> //; first by apply: leq_ltn_trans Hk' _; rewrite prednK.
  + by split=> //; lra.
  + by lra.
Qed.

Lemma find_mono (cs : seq R) (p q : R) :
  p <= q -> has (Rle_b q) cs ->
  (find (Rle_b p) cs <= find (Rle_b q) cs)%N.
Proof.
move=> Hpq Hq; rewrite leqNgt; apply/negP => /(before_find 0) /Rle_bP Hn.
by have /Rle_bP := nth_find 0 Hq; lra.
Qed.

Lemma clip_mono (lo hi i j : nat) :
  (i <= j)%N -> (clip lo hi i <= clip lo hi j)%N.
Proof.
move=> Hij; rewrite /clip leq_min !geq_min.
by rewrite (leq_trans _ (_ : maxn i lo <= maxn j lo)%N) ?leqnn //
           ?geq_max ?leq_max ?Hij ?leqnn ?orbT // orbT.
Qed.

Lemma call_linear_real (cs xs : seq R) (fill : fval) (bounds : bool)
  (p : R) :
  well_formed_cdf cs -> size xs = size cs -> 0 <= p <= 1 ->
  call_linear (Interp1d (map Fin cs) (map Fin xs) fill bounds) (Fin p)
  = Fin (linear_interp cs xs p).
Proof.
move=> Hwf Hsz Hp; rewrite /call_linear /linear_interp /= size_map find_Fin.
have [Hi0 Hi Hb Hlt] := segment_of Hwf Hp.
set i := clip _ _ _ in Hi0 Hi Hb Hlt *.
have Hi' : (i.-1 < size cs)%N by apply: leq_ltn_trans Hi; exact: leq_pred.
rewrite !nth_map_Fin ?Hsz //=.
have Hne : nth 0 cs i + - nth 0 cs i.-1 <> 0 by lra.
by rewrite (eqr_false Hne).
Qed.


Lemma linear_interp_0 (cs xs : seq R) :
  well_formed_cdf cs -> size xs = size cs ->
  linear_interp cs xs 0 = head 0 xs.
Proof.
move=> Hwf Hsz; rewrite /linear_interp.
have Hn0 : (0 < size cs)%N by apply: ltn_trans (cdf_size Hwf).
have Hf : find (Rle_b 0) cs = 0%N.
  case: (cs) Hn0 (cdf_head Hwf) => [|c cs'] //= _ ->.
  by rewrite Rle_b_true //; lra.
rewrite (clip_lo (cdf_size Hwf) Hf) /=.
have -> : nth 0 cs 0 = 0 by rewrite -(cdf_head Hwf); case: (cs) Hn0.
have -> : nth 0 xs 0 = head 0 xs by case: (xs).
by have := cdf_second Hwf => H; field; lra.
Qed.

Lemma linear_interp_1 (cs xs : seq R) :
  well_formed_cdf cs -> size xs = size cs ->
  linear_interp cs xs 1 = last 0 xs.
Proof.
move=> Hwf Hsz; rewrite /linear_interp.
have Hn := cdf_size Hwf.
have Hn0 : (0 < size cs)%N by exact: ltn_trans Hn.
have Hle : (find (Rle_b 1) cs <= (size cs).-1)%N.
  by apply: find_le_last => //; rewrite (cdf_last Hwf); lra.
have Hhas : has (Rle_b 1) cs.
  by rewrite has_find; apply: leq_ltn_trans Hle _; rewrite prednK.
have Hf : find (Rle_b 1) cs = (size cs).-1.
  apply/eqP; rewrite eqn_leq Hle /= leqNgt; apply/negP => Hlt.
  have /Rle_bP H1 := nth_find 0 Hhas.
  have H2 : nth 0 cs (find (Rle_b 1) cs) <= nth 0 cs (size cs).-2.
    apply: sorted_nth_le; first exact: cdf_sorted.
    - by rewrite -ltnS prednK // -subn1 subn_gt0.
    - by rewrite -subn2 ltn_subrL.
  by have := cdf_penultimate Hwf; lra.
have H1n : (0 < (size cs).-1)%N by rewrite -subn1 subn_gt0.
rewrite Hf (clip_in H1n (leqnn _)).
have -> : nth 0 cs (size cs).-1 = 1 by rewrite nth_last (cdf_last Hwf).
have -> : nth 0 xs (size cs).-1 = last 0 xs by rewrite -Hsz nth_last.
by have := cdf_penultimate Hwf => H; field; lra.
Qed.

(** The interpolant does not decrease on the unit interval. *)
Lemma linear_interp_mono (cs xs : seq R) (p q : R) :
  well_formed_cdf cs -> size xs = size cs -> sorted Rle_b xs ->
  0 <= p -> p <= q -> q <= 1 ->
  linear_interp cs xs p <= linear_interp cs xs q.
Proof.
move=> Hwf Hsz Hxs Hp Hpq Hq.
have Hp' : 0 <= p <= 1 by lra.
have Hq' : 0 <= q <= 1 by lra.
have [Hi0 Hi Hbi Hli] := segment_of Hwf Hp'.
have [Hj0 Hj Hbj Hlj] := segment_of Hwf Hq'.
have Hn0 : (0 < size cs)%N by apply: ltn_trans (cdf_size Hwf).
have Hij : (clip 1 (size cs).-1 (find (Rle_b p) cs)
            <= clip 1 (size cs).-1 (find (Rle_b q) cs))%N.
  apply/clip_mono/find_mono => //.
  rewrite has_find; apply: (@leq_ltn_trans (size cs).-1); last by rewrite prednK.
  by apply: find_le_last => //; rewrite (cdf_last Hwf).
rewrite /linear_interp.
set i := clip _ _ _ in Hi0 Hi Hbi Hli Hij *.
set j := clip _ _ _ in Hj0 Hj Hbj Hlj Hij *.
have Hxi : nth 0 xs i.-1 <= nth 0 xs i.
  by apply: sorted_nth_le; rewrite ?Hsz // leq_pred.
have Hxj : nth 0 xs j.-1 <= nth 0 xs j.
  by apply: sorted_nth_le; rewrite ?Hsz // leq_pred.
move: Hij; rewrite leq_eqVlt => /orP [/eqP Eij|Hlt].
- by rewrite -Eij; apply: segment_mono => //; rewrite Eij.
- have [_ H1] := segment_bounds Hli Hbi Hxi.
  have [H2 _] := segment_bounds Hlj Hbj Hxj.
  have H3 : nth 0 xs i <= nth 0 xs j.-1.
    apply: sorted_nth_le => //; first by rewrite -ltnS prednK.
    by rewrite Hsz; apply: leq_ltn_trans Hj; exact: leq_pred.
  by lra.
Qed.

(** *** Cumulative sums *)

Lemma py_sum_sumR (s : seq R) : py_sum s = sumR s.
Proof.
elim: s => [|a s IH] //=.
by rewrite /py_sum /= py_sum_from IH; lra.
Qed.

Lemma sumR_ge0 (s : seq R) : all (Rle_b 0) s -> 0 <= sumR s.
Proof.
elim: s => [|a s IH] /=; first by lra.
by move=> /andP [/Rle_bP Ha /IH]; lra.
Qed.

Lemma sumR_rcons (s : seq R) (a : R) : sumR (rcons s a) = sumR s + a.
Proof. by elim: s => [|b s IH] /=; [lra | rewrite IH; lra]. Qed.

Lemma sumR_scale (k : R) (s : seq R) :
  sumR [seq a * k | a <- s] = sumR s * k.
Proof. by elim: s => [|a s IH] /=; [lra | rewrite IH; lra]. Qed.

Lemma cumsumR_from_scale (k acc : R) (s : seq R) :
  cumsumR_from (acc * k) [seq a * k | a <- s]
  = [seq c * k | c <- cumsumR_from acc s].
Proof.
elim: s acc => [|a s IH] acc //=.
by rewrite -Rmult_plus_distr_r IH.
Qed.

Lemma cumsumR_scale (k : R) (s : seq R) :
  cumsumR [seq a * k | a <- s] = [seq c * k | c <- cumsumR s].
Proof. by case: s => [|a s] //=; rewrite cumsumR_from_scale. Qed.

Lemma cumsumR_from_rcons (acc a : R) (s : seq R) :
  cumsumR_from acc (rcons s a)
  = rcons (cumsumR_from acc s) (acc + sumR s + a).
Proof.
elim: s acc => [|b s IH] acc /=; first by congr (_ :: _); lra.
by rewrite IH; congr (_ :: rcons _ _); lra.
Qed.

Lemma last_cumsumR_from (acc : R) (s : seq R) :
  last acc (cumsumR_from acc s) = acc + sumR s.
Proof.
elim: s acc => [|a s IH] acc /=; first by lra.
by rewrite IH; lra.
Qed.

Lemma path_cumsumR_from (b acc : R) (s : seq R) :
  b <= acc -> all (Rle_b 0) s -> path Rle_b b (cumsumR_from acc s).
Proof.
elim: s b acc => [|a s IH] b acc Hb //= /andP [/Rle_bP Ha Hs].
apply/andP; split; first by apply/Rle_bP; lra.
by apply: IH => //; lra.
Qed.

Lemma size_cumsumR_from (acc : R) (s : seq R) :
  size (cumsumR_from acc s) = size s.
Proof. by elim: s acc => [|a s IH] acc //=; rewrite IH. Qed.

(** The table in exact arithmetic does not depend on the range. *)
Lemma cdfR_weights (y : seq R) (x_range : R) :
  x_range <> 0 ->
  cdfR y x_range = cumsumR [seq yi / py_sum y | yi <- y].
Proof.
move=> Hr; rewrite /cdfR.
have -> : [seq yi / py_sum y * x_range | yi <- y]
          = [seq a * x_range | a <- [seq yi / py_sum y | yi <- y]].
  by rewrite -map_comp.
rewrite cumsumR_scale -map_comp -[RHS]map_id; apply: eq_map => c /=.
by field.
Qed.

Lemma nth_cons_rcons (x v : R) (u : seq R) :
  nth 0 (x :: rcons u v) (size u) = last x u.
Proof.
rewrite -rcons_cons nth_rcons /= ltnS leqnn.
by rewrite -[size u]/((size (x :: u)).-1) nth_last.
Qed.

(** Weights that sum to 1 give a well-formed table, provided the first two
    are not both zero and the last is positive. *)
Lemma well_formed_weights (w0 wl : R) (w : seq R) :
  0 <= w0 -> all (Rle_b 0) w -> 0 < wl -> w0 + sumR w + wl = 1 ->
  0 < w0 + head wl w ->
  clamp (cumsumR (w0 :: rcons w wl)) = 0 :: cumsumR_from w0 (rcons w wl)
  /\ well_formed_cdf (0 :: cumsumR_from w0 (rcons w wl)).
Proof.
move=> H0 Hw Hl Hsum Hsec.
have E : cumsumR_from w0 (rcons w wl) = rcons (cumsumR_from w0 w) 1.
  by rewrite cumsumR_from_rcons Hsum.
split.
  by rewrite /clamp /= E belast_rcons /= -rcons_cons.
have Hpath : path Rle_b 0 (cumsumR_from w0 (rcons w wl)).
  apply: path_cumsumR_from => //.
  by rewrite all_rcons Hw andbT; apply/Rle_bP; lra.
split=> //.
- by rewrite /= size_cumsumR_from size_rcons.
- by rewrite /= E last_rcons.
- by case: (w) Hsec => [|a w'] /=; lra.
- rewrite E /= size_rcons /= nth_cons_rcons.
  case: (w) Hw Hsum => [|a w'] /=; first by lra.
  move=> /andP [/Rle_bP Ha Hw'] Hs.
  rewrite last_cumsumR_from.
  by have := sumR_ge0 Hw'; lra.
Qed.

(** *** From the float table to the real one *)

Lemma y_norm_real (y : seq R) (x_range : R) :
  py_sum y <> 0 ->
  y_norm y x_range = map Fin [seq yi / py_sum y * x_range | yi <- y].
Proof.
move=> HS; rewrite /y_norm -map_comp; apply: eq_map => yi /=.
by rewrite (eqr_false HS).
Qed.

Lemma cumsum_from_real (acc : R) (s : seq R) :
  cumsum_from (Fin acc) (map Fin s) = map Fin (cumsumR_from acc s).
Proof. by elim: s acc => [|a s IH] acc //=; rewrite IH. Qed.

Lemma np_cumsum_real (s : seq R) :
  np_cumsum (map Fin s) = map Fin (cumsumR s).
Proof. by case: s => [|a s] //=; rewrite cumsum_from_real. Qed.

Lemma cdf_table_real (y : seq R) (x_range : R) :
  py_sum y <> 0 -> x_range <> 0 -> (0 < size y)%N ->
  cdf_table y x_range = Ok (map Fin (clamp (cdfR y x_range))).
Proof.
move=> HS Hr Hy; rewrite /cdf_table y_norm_real // np_cumsum_real.
have -> : [seq fdiv c (Fin x_range)
          | c <- map Fin
                   (cumsumR [seq yi / py_sum y * x_range | yi <- y])]
          = map Fin (cdfR y x_range).
  rewrite /cdfR -!map_comp; apply: eq_map => c /=.
  by rewrite (eqr_false Hr).
have : (0 < size (cdfR y x_range))%N.
  rewrite /cdfR size_map; case: (y) Hy => [|a y'] //=.
case: (cdfR y x_range) => [|c0 cs] //= _.
by rewrite map_rcons -belast_map.
Qed.

Lemma head_lt_last (s : seq R) :
  (2 <= size s)%N -> sorted Rlt_b s -> head 0 s < last 0 s.
Proof.
case: s => [|a [|b s]] //= _ /andP [/Rlt_bP Hab Hp].
have : b <= last b s.
  have := @head_le_last (b :: s); rewrite /=; apply.
  by apply: sub_path Hp; exact: Rlt_le_b.
by lra.
Qed.

(** The constructor on a well-formed input, with its two interpolants. *)
Lemma NumericalDistribution_init_unfold (x y : seq R)
  (central : option pyval) (cs : seq R) :
  (2 <= size x)%N -> size y = size x -> sorted Rle_b x ->
  cdf_table y (last 0 x - head 0 x) = Ok (map Fin cs) -> sorted Rle_b cs ->
  exists c,
    NumericalDistribution_init x y central
    = Ok (NumericalDistribution c
            (Interp1d (map Fin x)
               (map np_log (y_norm y (last 0 x - head 0 x))) NegInf true)
            (Interp1d (map Fin cs) (map Fin x) NaN true)).
Proof.
move=> H2 Hsz Hle Hcdf Hcs.
have Hx0 : (0 < size x)%N by exact: ltn_trans H2.
rewrite /NumericalDistribution_init.
have [c ->] : exists c,
    match central with
    | Some c => Ok c
    | None => i <- np_argmax y ;; mode <- getitem x i ;; Ok (PyFloat mode)
    end = Ok c.
  case: central => [c|]; first by exists c.
  by have [m ->] := mode_ok Hsz Hx0; exists (PyFloat m).
have -> : getitem_last x = Ok (last 0 x) by case: (x) Hx0.
have -> : getitem0 x = Ok (head 0 x) by case: (x) Hx0.
have Hsz1 : size x = size (map np_log (y_norm y (last 0 x - head 0 x))).
  by rewrite size_map /y_norm size_map Hsz.
rewrite /bind (interp1d_init_sorted _ _ Hsz1 H2 Hle) Hcdf.
have Hsc : size cs = size (map Fin x).
  have [cdf [E Hc]] := @cdf_table_ok y (last 0 x - head 0 x)
                         (eq_ind_r (fun n => (0 < n)%N) Hx0 Hsz).
  move: E; rewrite Hcdf => -[E]; rewrite size_map -Hsz -Hc -E.
  by rewrite size_map.
have H2c : (2 <= size cs)%N by rewrite Hsc size_map.
rewrite (interp1d_init_sorted _ _ Hsc H2c Hcs).
by exists c.
Qed.

Lemma well_formed_table (y : seq R) (x_range : R) :
  (2 <= size y)%N -> all (Rle_b 0) y -> 0 < nth 0 y 0 + nth 0 y 1 ->
  0 < last 0 y -> 0 < x_range ->
  exists cs, [/\ cdf_table y x_range = Ok (map Fin cs), size cs = size y
               & well_formed_cdf cs].
Proof.
case: y => [|y0 y'] // H2 Hy Hsec Hlast Hr.
case/lastP: y' H2 Hy Hsec Hlast => [|y' yl] // _.
rewrite /= all_rcons last_rcons => /and3P [/Rle_bP H0 /Rle_bP Hl' Hy'] Hsec Hl.
have Hy'0 := sumR_ge0 Hy'.
have HS : py_sum (y0 :: rcons y' yl) = y0 + sumR y' + yl.
  by rewrite py_sum_sumR /= sumR_rcons; lra.
have Hsec' : 0 < y0 + head yl y'.
  by move: Hsec; case: (y') => [|a s] /=.
have HSpos : 0 < py_sum (y0 :: rcons y' yl).
  rewrite HS; case: (y') Hy' Hy'0 Hsec' => [|a s] /=; first by lra.
  by move=> /andP [/Rle_bP Ha /sumR_ge0 Hs] _; lra.
set S := py_sum _ in HS HSpos.
have Hinv : 0 < / S by exact: Rinv_0_lt_compat.
have W0 : 0 <= y0 / S by apply: Rmult_le_pos; lra.
have Ww : all (Rle_b 0) [seq a * / S | a <- y'].
  elim: (y') Hy' => [|a s IH] //= /andP [/Rle_bP Ha /IH ->].
  by rewrite andbT; apply/Rle_bP; apply: Rmult_le_pos; lra.
have Wl : 0 < yl / S by exact: Rmult_lt_0_compat.
have Wsum : y0 / S + sumR [seq a * / S | a <- y'] + yl / S = 1.
  by rewrite sumR_scale; field_simplify_eq; lra.
have Wsec : 0 < y0 / S + head (yl / S) [seq a * / S | a <- y'].
  by case: (y') Hsec' => [|a s] /= H; rewrite -Rmult_plus_distr_r;
     exact: Rmult_lt_0_compat.
have [E Hwf] := well_formed_weights W0 Ww Wl Wsum Wsec.
exists (0 :: cumsumR_from (y0 / S) (rcons [seq a * / S | a <- y'] (yl / S))).
split=> //.
- have HS0 : S <> 0 by lra.
  have Hr0 : x_range <> 0 by lra.
  rewrite (cdf_table_real HS0 Hr0 isT) (cdfR_weights _ Hr0) -/S.
  by rewrite [map _ (_ :: _)]/= map_rcons; congr (Ok (map Fin _)); exact: E.
- by rewrite /= size_cumsumR_from !size_rcons size_map.
Qed.





End Quantile.

(** ** Sampling *)

Section SamplingShape.

Local Open Scope R_scope.

Variable rng : Type.
Variable draw_uniform : rng -> R * rng.
Variable draw_normal : rng -> R * rng.

Lemma size_draws (draw : rng -> R * rng) (n : nat) (g : rng) :
  size (draws draw n g).1 = n.
Proof.
elim: n g => [|n IH] g //=.
by case: (draw g) => v g1; move: (IH g1); case: (draws draw n g1) => vs g2 /= ->.
Qed.

Lemma sized_shape (draw : rng -> R * rng) (size : option nat) (g : rng) :
  has_shape size (sized draw size g).1.
Proof.
case: size => [n|] /=; last by case: (draw g).
by move: (size_draws draw n g); case: (draws draw n g).
Qed.

Lemma sample_map_shape {A B : Type} (f : A -> B) (size : option nat)
  (s : sample A) :
  has_shape size s -> has_shape size (sample_map f s).
Proof. by case: size s => [n|] [v|vs] //=; rewrite size_map. Qed.

(** The sibling classes pass [size] on: a Delta distribution answers with
    an array of [n] copies of its central value. *)
Lemma delta_get_random_shape (c : pyval) (size : option nat) (g : rng) :
  exists s, get_random draw_uniform draw_normal (DeltaDistribution c) size g
            = Ok (s, g) /\ has_shape size s.
Proof.
eexists; split; first by [].
by case: size => [n|] //=; rewrite !size_map size_nseq.
Qed.

Lemma normal_get_random_shape (c : pyval) (s : R) (size : option nat)
  (g : rng) :
  0 <= s ->
  exists v g', get_random draw_uniform draw_normal
                 (NormalDistribution c s) size g = Ok (v, g')
               /\ has_shape size v.
Proof.
move=> Hs; rewrite /get_random /np_random_normal (Rlt_b_false Hs).
have := sized_shape draw_normal size g.
case: (sized draw_normal size g) => v g' /= Hv.
by do 2 eexists; split; first by []; do 2 apply: sample_map_shape.
Qed.

(** C9, what the source does for AsymmetricNormalDistribution: the method
    takes [size] but never uses it, so [get_random(size=n)] answers with a
    single scalar, not with an array of [n] samples. *)
Theorem asymmetric_get_random_scalar (c : pyval) (r l : R) (n : nat)
  (g : rng) :
  0 <= r -> 0 <= l -> r + l <> 0 ->
  exists v g',
    get_random draw_uniform draw_normal
      (AsymmetricNormalDistribution c r l) (Some n) g = Ok (Scalar v, g')
    /\ ~ has_shape (Some n) (Scalar v).
Proof.
move=> Hr Hl Hrl; rewrite /get_random /asymmetric_get_random.
case: (draw_uniform g) => u g1; rewrite (eqr_false Hrl).
rewrite /np_random_normal (Rlt_b_false Hr) (Rlt_b_false Hl) /=.
case: (draw_normal g1) => z g2.
by case: (Rlt_b _ u) => /=; do 2 eexists; split.
Qed.

End SamplingShape.

Lemma asymmetric_get_random_scalar_witness :
  exists v g',
    get_random (fun g : nat => (1 / 2, g.+1)%Re) (fun g : nat => (0%Re, g.+1))
      (AsymmetricNormalDistribution (PyFloat 0) 1 1) (Some 3%N) 0%N
    = Ok (Scalar v, g')
    /\ ~ has_shape (Some 3%N) (Scalar v).
Proof.
by apply: asymmetric_get_random_scalar; lra.
Defined.

(** ** The multivariate normal log-density *)

Import GRing.Theory.

Section MatrixFacts.

Local Open Scope ring_scope.

Lemma positive_form_diag (n : nat) (A : 'M[R]_n) (i : 'I_n) :
  positive_form A -> Rlt 0%Re (A i i).
Proof.
move=> /(_ (delta_mx 0 i)) H.
have Hne : delta_mx 0 i != 0 :> 'rV[R]_n.
  apply/eqP => /matrixP /(_ 0 i); rewrite !mxE !eqxx /=.
  by move=> /eqP; rewrite oner_eq0.
have := H Hne.
by rewrite -rowE trmx_delta -colE !mxE.
Qed.

(** Ring operations on R are the ones of the standard library. *)
Lemma RplusE (x y : R) : x + y = Rplus x y. Proof. by []. Qed.
Lemma RmultE (x y : R) : x * y = Rmult x y. Proof. by []. Qed.
Lemma RinvE (x : R) : x^-1 = Rinv x. Proof. by []. Qed.
Lemma R0E : (0%R : R) = 0%Re. Proof. by []. Qed.
Lemma R1E : (1%R : R) = 1%Re. Proof. by []. Qed.


(** The Schur complement of the first entry. *)
Lemma positive_form_schur (n : nat) (a : R) (b : 'rV[R]_n) (c : 'cV[R]_n)
  (C : 'M[R]_n) :
  a != 0 ->
  positive_form (block_mx a%:M b c C : 'M_(1 + n)) ->
  positive_form (C - a^-1 *: (c *m b)).
Proof.
move=> Ha HA w Hw.
pose v : 'rV[R]_(1 + n) := row_mx (- a^-1 *: (w *m c)) w.
have Hv : v != 0.
  by rewrite /v row_mx_eq0 negb_and Hw orbT.
have := HA v Hv.
rewrite /v mul_row_block tr_row_mx mul_row_col.
rewrite mul_mx_scalar scalerA mulrN mulfV // scaleN1r addNr mul0mx add0r.
have -> // : w *m (C - a^-1 *: (c *m b))
             = - a^-1 *: (w *m c) *m b + w *m C.
rewrite mulmxBr addrC; congr (_ + _).
by rewrite -scalemxAr mulmxA -scalemxAl scaleNr.
Qed.

Lemma det_schur (n : nat) (a : R) (b : 'rV[R]_n) (c : 'cV[R]_n)
  (C : 'M[R]_n) :
  a != 0 ->
  \det (block_mx a%:M b c C : 'M_(1 + n))
  = a * \det (C - a^-1 *: (c *m b)).
Proof.
move=> Ha.
pose L : 'M[R]_(1 + n) := block_mx 1%:M 0 (- a^-1 *: c) 1%:M.
have HL : \det L = 1 by rewrite det_lblock !det1 mulr1.
have E : L *m (block_mx a%:M b c C : 'M_(1 + n))
         = block_mx a%:M b 0 (C - a^-1 *: (c *m b)).
  rewrite /L mulmx_block !mul1mx !mul0mx !addr0.
  rewrite mul_mx_scalar scalerA mulrN mulfV // scaleN1r addNr.
  by rewrite -scalemxAl scaleNr addrC.
by rewrite -[LHS]mul1r -HL -det_mulmx E det_ublock det_scalar1.
Qed.

Lemma positive_form_det (n : nat) (A : 'M[R]_n) :
  positive_form A -> Rlt 0%Re (\det A).
Proof.
elim: n A => [|n IH] A HA; first by rewrite det_mx00 R1E; lra.
have Ha : Rlt 0%Re (A 0 0) by exact: positive_form_diag.
have Ha0 : A 0 0 != 0 by apply/eqP => E; rewrite E R0E in Ha; lra.
have Eul : ulsubmx (A : 'M_(1 + n)) = (A 0 0)%:M.
  by rewrite [LHS]mx11_scalar !mxE !lshift0.
have EA := esym (@submxK _ 1 n 1 n A).
rewrite Eul in EA; rewrite EA in HA *.
rewrite det_schur // RmultE; apply: Rmult_lt_0_compat => //.
by apply: IH; exact: positive_form_schur.
Qed.


Section Rescaling.

Variable n : nat.
Variable A : 'M[R]_n.
Hypothesis HA : posdef A.

(** The diagonal matrix of the standard deviations, and its inverse. *)
Let D : 'M[R]_n := diag_mx (np_sqrt_diag A).
Let Dinv : 'M[R]_n := diag_mx (\row_i (np_sqrt_diag A 0 i)^-1).

Lemma np_sqrt_diag_gt0 (i : 'I_n) : Rlt 0%Re (np_sqrt_diag A 0 i).
Proof.
by rewrite mxE; apply: sqrt_lt_R0; apply: positive_form_diag; case: HA.
Qed.

Lemma np_sqrt_diag_neq0 (i : 'I_n) : np_sqrt_diag A 0 i != 0.
Proof.
by apply/eqP => E; have := np_sqrt_diag_gt0 i; rewrite E R0E; lra.
Qed.

Lemma rescale_mulV : D *m Dinv = 1%:M.
Proof.
rewrite /D /Dinv mulmx_diag -diag_const_mx; congr diag_mx.
by apply/rowP => j; have := np_sqrt_diag_neq0 j; rewrite !mxE => /mulfV ->.
Qed.

Lemma rescale_mulVr : Dinv *m D = 1%:M.
Proof. exact: mulmx1C rescale_mulV. Qed.

Lemma np_divide_row (x : 'rV[R]_n) :
  np_divide x (np_sqrt_diag A) = x *m Dinv.
Proof.
by rewrite /Dinv mul_mx_diag; apply/matrixP => i j; rewrite !mxE !ord1.
Qed.

Lemma np_divide_cov :
  np_divide A (np_outer (np_sqrt_diag A) (np_sqrt_diag A))
  = Dinv *m A *m Dinv.
Proof.
rewrite /Dinv mul_mx_diag; apply/matrixP => i j; rewrite mul_diag_mx !mxE.
by rewrite /Rdiv Rinv_mult -!RmultE -!RinvE mulrCA mulrA.
Qed.

Lemma rescale_tr : Dinv^T = Dinv.
Proof. exact: tr_diag_mx. Qed.

Lemma rescale_posdef : posdef (Dinv *m A *m Dinv).
Proof.
case: HA => Hsym Hpos; split.
  by rewrite !trmx_mul rescale_tr Hsym mulmxA.
move=> v Hv.
have Hv' : v *m Dinv != 0.
  apply: contra Hv => /eqP E.
  by rewrite -[v]mulmx1 -rescale_mulVr mulmxA E mul0mx.
have := Hpos _ Hv'.
by rewrite trmx_mul rescale_tr !mulmxA.
Qed.

Lemma rescale_det :
  \det (Dinv *m A *m Dinv) = \det Dinv * \det Dinv * \det A.
Proof. by rewrite !det_mulmx mulrAC. Qed.

Lemma rescale_det_neq0 : \det Dinv != 0.
Proof.
have := congr1 determinant rescale_mulVr.
rewrite det_mulmx det1 => E; apply/eqP => E0.
by move: E; rewrite E0 mul0r => /eqP; rewrite eq_sym oner_eq0.
Qed.

Lemma det_posdef : Rlt 0%Re (\det A).
Proof. by apply: positive_form_det; case: HA. Qed.

Lemma unit_posdef : A \in unitmx.
Proof.
rewrite unitmxE unitfE; apply/eqP => E.
by have := det_posdef; rewrite E R0E; lra.
Qed.

Lemma rescale_inv :
  invmx (Dinv *m A *m Dinv) = D *m invmx A *m D.
Proof.
have E : (Dinv *m A *m Dinv) *m (D *m invmx A *m D) = 1%:M.
  rewrite !mulmxA -[_ *m Dinv *m D]mulmxA rescale_mulVr mulmx1.
  by rewrite -[_ *m A *m invmx A]mulmxA mulmxV ?unit_posdef // mulmx1
             rescale_mulVr.
have [U _] := mulmx1_unit E.
by rewrite -[RHS](mulKmx U) E mulmx1.
Qed.

Lemma rescale_mahalanobis (v : 'rV[R]_n) :
  mahalanobis (Dinv *m A *m Dinv) (v *m Dinv) = mahalanobis A v.
Proof.
rewrite /mahalanobis rescale_inv trmx_mul rescale_tr !mulmxA.
rewrite -[v *m Dinv *m D]mulmxA rescale_mulVr mulmx1.
by rewrite -[_ *m D *m Dinv]mulmxA rescale_mulV mulmx1.
Qed.

End Rescaling.


Lemma ln_quot (x y : R) :
  Rlt 0%Re x -> Rlt 0%Re y -> ln (Rdiv x y) = Rminus (ln x) (ln y).
Proof.
move=> Hx Hy.
by rewrite /Rdiv (ln_mult _ _ Hx (Rinv_0_lt_compat _ Hy)) (ln_Rinv _ Hy).
Qed.

(** C3: for a symmetric positive-definite covariance, [logpdf] - the
    density of the rescaled point under the rescaled covariance plus half
    the logarithm of the ratio of the two determinants - returns exactly
    the multivariate normal log-density of the covariance itself. *)
Theorem multivariate_logpdf_spec (n : nat) (d : MultivariateNormal n)
  (x : 'rV[R]_n) :
  posdef (covariance d) ->
  multivariate_logpdf d x
  = Ok (mvn_log_density (mv_central_value d) (covariance d) x).
Proof.
case: d => mu A /= HA; rewrite /multivariate_logpdf /=.
rewrite !np_divide_row np_divide_cov.
rewrite /multivariate_normal_logpdf.
destruct (excluded_middle_informative _) as [Hp|Hn]; last first.
  by case: Hn; exact: (@rescale_posdef _ _ HA).
set Dinv := diag_mx _.
have Hd := @det_posdef _ _ HA.
have Hq : \det Dinv != 0 by exact: (@rescale_det_neq0 _ _ HA).
have Hq2 : Rlt 0%Re (Rmult (\det Dinv) (\det Dinv)).
  have /eqP := Hq; rewrite R0E => H.
  by have := Rsqr_pos_lt _ H; rewrite /Rsqr.
have Hd' : Rlt 0%Re (\det (Dinv *m A *m Dinv)).
  by rewrite (@rescale_det _ A) !RmultE; apply: Rmult_lt_0_compat.
have Hr : Rlt 0%Re (Rdiv (\det (Dinv *m A *m Dinv)) (\det A)).
  exact: Rdiv_lt_0_compat.
rewrite /bind (math_log_pos Hr) (@ln_quot _ _ Hd' Hd) /mvn_log_density.
rewrite -mulmxBl (@rescale_mahalanobis _ _ HA).
congr Ok.
move: (INR n * ln (2 * PI))%Re (ln (\det (Dinv *m A *m Dinv))) (ln (\det A))
      (mahalanobis A (x - mu)) => a b c q.
by lra.
Qed.


Lemma sum_ge0 (I : Type) (r : seq I) (P : pred I) (F : I -> R) :
  (forall i, Rle 0%Re (F i)) -> Rle 0%Re (\sum_(i <- r | P i) F i).
Proof.
move=> HF; elim/big_ind: _ => //; first by rewrite R0E; lra.
by move=> a b Ha Hb; rewrite RplusE; lra.
Qed.

(** A diagonal covariance with positive variances is positive definite. *)
Lemma posdef_diag (n : nat) (d : 'rV[R]_n) :
  (forall j, Rlt 0%Re (d 0 j)) -> posdef (diag_mx d).
Proof.
move=> Hd; split; first exact: tr_diag_mx.
move=> v Hv.
have [k Hk] : exists k, v 0 k != 0.
  case: (pickP (fun k => v 0 k != 0)) => [k Hk|H0]; first by exists k.
  case/negP: Hv; apply/eqP/rowP => j; rewrite mxE.
  by have /negbFE/eqP := H0 j.
have -> : (v *m diag_mx d *m v^T) 0 0
          = \sum_j Rmult (d 0 j) (Rmult (v 0 j) (v 0 j)).
  rewrite mul_mx_diag mxE; apply: eq_bigr => j _.
  by rewrite !mxE [v 0 j * d 0 j]mulrC -mulrA.
rewrite (bigD1 k) //= RplusE.
have H1 : Rlt 0%Re (Rmult (d 0 k) (Rmult (v 0 k) (v 0 k))).
  have /eqP := Hk; rewrite R0E => Hne.
  have := Rsqr_pos_lt _ Hne; rewrite /Rsqr => Hsq.
  exact: Rmult_lt_0_compat.
have H2 : Rle 0%Re (\sum_(i < n | i != k)
                       Rmult (d 0 i) (Rmult (v 0 i) (v 0 i))).
  apply: sum_ge0 => i.
  apply: Rmult_le_pos; first by left.
  exact: Rle_0_sqr.
exact: Rplus_lt_le_0_compat.
Qed.

Lemma multivariate_logpdf_spec_witness :
  multivariate_logpdf
    (MultivariateNormalDistribution 0 (diag_mx unequal_variances)) 0
  = Ok (mvn_log_density 0 (diag_mx unequal_variances) 0).
Proof.
apply: multivariate_logpdf_spec; apply: posdef_diag => j.
by rewrite mxE; case: ifP => _; lra.
Defined.

End MatrixFacts.

(** * Further properties *)

(** ** The combiner: which lists it accepts, and what it answers *)

Section CombinerMore.

Local Open Scope R_scope.

Lemma combine_distributions_value (first : obj) (rest : seq obj)
  (next : nat) :
  rest <> [::] -> is_float (central_value (val first)) ->
  all (fun pd => ~~ differs_from first pd) (first :: rest) ->
  all delta_or_normal (first :: rest) ->
  combine_distributions (first :: rest) next
  = Ok (Obj next (combined first (first :: rest)), next.+1).
Proof.
move=> Hr Hf Hc Hk; rewrite (combine_distributions_unfold next Hr Hf).
rewrite (combine_loop_ok [::] Hc Hk) cat0s /bind.
rewrite mapM_squares ?filter_all // normal_deviations_filter.
by rewrite py_sum_squares (math_sqrt_ge0 (sum_of_squares_ge0 _)).
Qed.














(** X5: identity of the answer.  For lists whose elements were created
    before [next], a one-element list is answered by an instance equal
    ([__eq__]) to its element and nothing is created; a longer list is
    answered by an instance that is equal to none of the inputs; and all
    identities stay below the next free one. *)
Theorem combine_distributions_identity (pds : seq obj) (next : nat) :
  combinable pds -> all (fun pd => (id pd < next)%N) pds ->
  exists o next',
    [/\ combine_distributions pds next = Ok (o, next'),
        size pds = 1%N -> has (obj_eq o) pds /\ next' = next,
        (2 <= size pds)%N -> ~~ has (obj_eq o) pds /\ next' = next.+1
      & all (fun pd => (id pd < next')%N) (o :: pds)].
Proof.
case: pds => [|first [|pd rest]] //.
- move=> _ /= Hid; exists first, next; split=> //.
  + by move=> _; rewrite /= /obj_eq eqxx.
  + by case/andP: Hid => ->.
- rewrite /combinable => /and3P [Hf Hc Hk] Hid.
  have Hr : pd :: rest <> [::] by [].
  exists (Obj next (combined first [:: first, pd & rest])), next.+1.
  split=> //.
  + exact: combine_distributions_value.
  + move=> _; split=> //; rewrite -all_predC.
    apply: sub_all Hid => x /=; rewrite /obj_eq /= => Hx.
    by rewrite neq_ltn Hx orbT.
  + rewrite [all _ _]/= ltnSn /=.
    by apply: sub_all Hid => x Hx; exact: ltnW.
Qed.

End CombinerMore.

Section CombinerExamples.

Local Open Scope R_scope.





Lemma combine_distributions_identity_witness :
  exists o next',
    [/\ combine_distributions delta_then_normal 2 = Ok (o, next'),
        size delta_then_normal = 1%N ->
        has (obj_eq o) delta_then_normal /\ next' = 2%N,
        (2 <= size delta_then_normal)%N ->
        ~~ has (obj_eq o) delta_then_normal /\ next' = 3%N
      & all (fun pd => (id pd < next')%N) (o :: delta_then_normal)].
Proof.
apply: combine_distributions_identity => //.
by rewrite /= /differs_from /py_ne /= eqxx.
Defined.

End CombinerExamples.

(** ** The closed-form densities: edge cases and shape *)

Section DensitiesMore.

Local Open Scope R_scope.

(** X6: a Uniform distribution with a half range that is zero or negative
    has an empty interval: [logpdf] is 0 at every point and the logarithm
    of the non-positive width is never taken. *)
Theorem uniform_logpdf_degenerate (c : pyval) (h x : R) :
  h <= 0 -> logpdf (UniformDistribution c h) x = Ok (Fin 0).
Proof.
move=> Hh; rewrite /= /uniform_logpdf /uniform_range /=.
case: (Rlt_bP x _) => //= H1.
have H2 : to_R c + h <= x by lra.
by rewrite (Rle_b_true H2).
Qed.

Lemma normal_logpdf_value (c : pyval) (s x : R) :
  0 < s ->
  logpdf (NormalDistribution c s) x
  = Ok (Fin (gaussian_log_density (to_R c) s x)).
Proof. by move=> Hs; rewrite /= /normal_logpdf norm_logpdf_gaussian. Qed.

(** X7: with equal deviations the asymmetric distribution is the Normal
    one: the two have the same [logpdf]. *)
Theorem asymmetric_logpdf_symmetric (c : pyval) (s x : R) :
  0 < s ->
  logpdf (AsymmetricNormalDistribution c s s) x
  = logpdf (NormalDistribution c s) x.
Proof.
move=> Hs; rewrite normal_logpdf_value //.
have Hp := gaussian_density_gt0 (to_R c) (to_R c) Hs.
have E : ln (2 * gaussian_density (to_R c) s (to_R c)
             / (gaussian_density (to_R c) s (to_R c)
                + gaussian_density (to_R c) s (to_R c))) = 0.
  rewrite -ln_1; congr ln; field; lra.
case: (Rlt_bP x (to_R c)) => Hx.
- by rewrite /= (asymmetric_logpdf_left Hs Hs Hx) E Rplus_0_l.
- have Hx' : to_R c <= x by lra.
  by rewrite /= (asymmetric_logpdf_right Hs Hs Hx') E Rplus_0_l.
Qed.

(** X8: the constructor of the asymmetric distribution accepts a deviation
    of zero, although its message asks for positive numbers; the instance
    then has no density: [logpdf] is nan at every point, without an
    exception. *)
Theorem asymmetric_zero_deviation (c : pyval) (r l x : R) :
  0 <= r -> 0 <= l -> r = 0 \/ l = 0 ->
  AsymmetricNormalDistribution_init c r l
  = Ok (AsymmetricNormalDistribution c r l)
  /\ logpdf (AsymmetricNormalDistribution c r l) x = Ok NaN.
Proof.
move=> Hr Hl H0; split.
  by rewrite /AsymmetricNormalDistribution_init !Rlt_b_false.
rewrite /= /asymmetric_logpdf /norm_pdf /norm_logpdf.
case: H0 => E; rewrite E (Rlt_b_false (Rle_refl 0)).
- by case: (Rlt_b 0 l); case: (Rlt_b x _).
- by case: (Rlt_b 0 r); case: (Rlt_b x _).
Qed.

Lemma gaussian_log_density_formula (c s x : R) :
  0 < s ->
  gaussian_log_density c s x
  = - ((x - c) / s) ^ 2 / 2 - ln (sqrt (2 * PI)) - ln s.
Proof.
move=> Hs; have := norm_logpdf_gaussian c x Hs.
by rewrite /norm_logpdf (Rlt_b_true Hs); case.
Qed.

Lemma gaussian_log_density_le (c s x : R) :
  0 < s -> gaussian_log_density c s x <= gaussian_log_density c s c.
Proof.
move=> Hs; rewrite !gaussian_log_density_formula //.
have H1 := pow2_ge_0 ((x - c) / s).
have -> : ((c - c) / s) ^ 2 = 0 by rewrite /Rdiv; ring.
by lra.
Qed.

Lemma exp_le (a b : R) : a <= b -> exp a <= exp b.
Proof.
move=> H; case: (Rle_lt_or_eq_dec _ _ H) => [/exp_increasing|->]; lra.
Qed.

Lemma asymmetric_mode_value (c r l : R) :
  0 < r -> 0 < l ->
  ln (2 * gaussian_density c r c
      / (gaussian_density c l c + gaussian_density c r c))
  + gaussian_log_density c l c
  = ln (2 * gaussian_density c l c
        / (gaussian_density c l c + gaussian_density c r c))
    + gaussian_log_density c r c.
Proof.
move=> Hr Hl; rewrite /gaussian_log_density.
set pl := gaussian_density c l c; set pr := gaussian_density c r c.
have Hpl : 0 < pl by exact: gaussian_density_gt0.
have Hpr : 0 < pr by exact: gaussian_density_gt0.
have Hfr : 0 < 2 * pr / (pl + pr) by exact: asymmetric_factor_gt0.
have Hfl : 0 < 2 * pl / (pl + pr).
  by rewrite Rplus_comm; exact: asymmetric_factor_gt0.
rewrite -(ln_mult _ _ Hfr Hpl) -(ln_mult _ _ Hfl Hpr).
by congr ln; field; lra.
Qed.

(** X9: the central value is the mode.  For a Delta, Normal, asymmetric
    or half Normal distribution (a GaussianUpperLimit included) with
    proper parameters, the density is positive at the central value and
    nowhere larger. *)
Theorem central_value_is_mode (d : dist) (x : R) :
  proper d ->
  0 < density_of (logpdf d (to_R (central_value d)))
  /\ density_of (logpdf d x)
     <= density_of (logpdf d (to_R (central_value d))).
Proof.
have Hhalf : forall c s, s <> 0 ->
    0 < density_of (halfnormal_logpdf c s (to_R c))
    /\ density_of (halfnormal_logpdf c s x)
       <= density_of (halfnormal_logpdf c s (to_R c)).
  move=> c s Hs.
  have Habs : 0 < Rabs s by exact: Rabs_pos_lt.
  have Hc : (0 < s /\ to_R c <= to_R c) \/ (s < 0 /\ to_R c <= to_R c).
    by case: (Rtotal_order 0 s) => [H|[H|H]]; [left|lra|right]; lra.
  rewrite (halfnormal_logpdf_populated_side Hc) /=.
  split; first exact: exp_pos.
  have [Hp|He] : ((0 < s /\ to_R c <= x) \/ (s < 0 /\ x <= to_R c))
                 \/ ((0 < s /\ x < to_R c) \/ (s < 0 /\ to_R c < x)).
    case: (Rtotal_order 0 s) => [H|[H|H]]; first last.
    - by case: (Rle_lt_dec x (to_R c)) => H'; [left; right|right; right].
    - by lra.
    - by case: (Rle_lt_dec (to_R c) x) => H'; [left; left|right; left].
  - rewrite (halfnormal_logpdf_populated_side Hp) /=.
    have := gaussian_log_density_le (to_R c) x Habs => Hle.
    by apply: exp_le; lra.
  - rewrite (halfnormal_logpdf_empty_side He) /=.
    by left; exact: exp_pos.
case: d => [c h|c|c s|c r l|c s|c s lim cl|c f g] //=.
- move=> _; rewrite /delta_logpdf eqxx /= exp_0; split; first by lra.
  by case: (x == _) => /=; rewrite ?exp_0; lra.
- move=> Hs; rewrite /normal_logpdf !norm_logpdf_gaussian //=.
  split; first exact: exp_pos.
  have := gaussian_log_density_le (to_R c) x Hs => Hle.
  exact: exp_le.
- move=> [Hr Hl].
  rewrite (asymmetric_logpdf_right Hr Hl (Rle_refl (to_R c))) /=.
  split; first exact: exp_pos.
  case: (Rlt_bP x (to_R c)) => Hx.
  + rewrite (asymmetric_logpdf_left Hr Hl Hx) /=.
    rewrite -(asymmetric_mode_value (to_R c) Hr Hl).
    have := gaussian_log_density_le (to_R c) x Hl => Hle.
    by apply: exp_le; lra.
  + have Hx' : to_R c <= x by lra.
    rewrite (asymmetric_logpdf_right Hr Hl Hx') /=.
    have := gaussian_log_density_le (to_R c) x Hr => Hle.
    by apply: exp_le; lra.
- exact: Hhalf.
- exact: Hhalf.
Qed.

Lemma np_sign_opp (s : R) : np_sign (- s) = - np_sign s.
Proof.
case: (Rtotal_order 0 s) => [H|[H|H]].
- by rewrite (np_sign_pos H) np_sign_neg //; lra.
- by rewrite -H Ropp_0 /np_sign (Rlt_b_false (Rle_refl 0)); lra.
- by rewrite (np_sign_neg H) np_sign_pos //; lra.
Qed.

(** X10: changing the sign of the deviation mirrors the half Normal
    distribution at its central value. *)
Theorem halfnormal_logpdf_mirror (c : pyval) (s t : R) :
  logpdf (HalfNormalDistribution c (- s)) (to_R c - t)
  = logpdf (HalfNormalDistribution c s) (to_R c + t).
Proof.
rewrite /= /halfnormal_logpdf np_sign_opp Rabs_Ropp.
have -> : - np_sign s * (to_R c - t - to_R c)
          = np_sign s * (to_R c + t - to_R c) by ring.
have -> // : norm_logpdf (to_R c - t) (to_R c) (Rabs s)
             = norm_logpdf (to_R c + t) (to_R c) (Rabs s).
rewrite /norm_logpdf; case: (Rlt_b 0 _) => //; congr Fin.
have -> // : ((to_R c - t - to_R c) / Rabs s) ^ 2
             = ((to_R c + t - to_R c) / Rabs s) ^ 2.
by rewrite /Rdiv; ring.
Qed.

End DensitiesMore.

Section DensitiesExamples.

Local Open Scope R_scope.

Lemma uniform_logpdf_degenerate_witness :
  logpdf (UniformDistribution (PyFloat 0) 0) 1 = Ok (Fin 0).
Proof. by apply: uniform_logpdf_degenerate; lra. Defined.

Lemma asymmetric_logpdf_symmetric_witness :
  logpdf (AsymmetricNormalDistribution (PyFloat 0) 1 1) 2
  = logpdf (NormalDistribution (PyFloat 0) 1) 2.
Proof. by apply: asymmetric_logpdf_symmetric; lra. Defined.

Lemma asymmetric_zero_deviation_witness :
  AsymmetricNormalDistribution_init (PyFloat 0) 0 1
  = Ok (AsymmetricNormalDistribution (PyFloat 0) 0 1)
  /\ logpdf (AsymmetricNormalDistribution (PyFloat 0) 0 1) 2 = Ok NaN.
Proof. by apply: asymmetric_zero_deviation; [lra | lra | left]. Defined.

Lemma central_value_is_mode_witness :
  0 < density_of (logpdf (HalfNormalDistribution (PyFloat 0) (-1)) 0)
  /\ density_of (logpdf (HalfNormalDistribution (PyFloat 0) (-1)) 2)
     <= density_of (logpdf (HalfNormalDistribution (PyFloat 0) (-1)) 0).
Proof.
apply: (@central_value_is_mode (HalfNormalDistribution (PyFloat 0) (-1)) 2).
by rewrite /=; lra.
Defined.

End DensitiesExamples.

(** ** Sampling the closed-form classes *)

Section SamplingMore.

Local Open Scope R_scope.

Variable rng : Type.
Variable draw_uniform : rng -> R * rng.
Variable draw_normal : rng -> R * rng.

Lemma sample_all_map {A B : Type} (f : A -> B) (P : B -> Prop)
  (s : sample A) :
  sample_all (fun v => P (f v)) s -> sample_all P (sample_map f s).
Proof.
rewrite /sample_all; case: s => [a|vs] /= H w.
- by case=> // <-; apply: H; left.
- by move/List.in_map_iff => [v [<- Hv]]; exact: H.
Qed.

Lemma sample_all_impl {A : Type} (P Q : A -> Prop) (s : sample A) :
  (forall v, P v -> Q v) -> sample_all P s -> sample_all Q s.
Proof. by move=> H Hs v /Hs /H. Qed.

Lemma draws_all (draw : rng -> R * rng) (P : R -> Prop) (n : nat) (g : rng) :
  (forall g', P (draw g').1) ->
  forall v, List.In v (draws draw n g).1 -> P v.
Proof.
move=> Hd; elim: n g => [|n IH] g v //=.
have := Hd g; case: (draw g) => u g1 /= Hu.
have := IH g1; case: (draws draw n g1) => vs g2 /= Hvs.
by case=> [<-|/Hvs].
Qed.

Lemma sized_all (draw : rng -> R * rng) (P : R -> Prop) (size : option nat)
  (g : rng) :
  (forall g', P (draw g').1) -> sample_all P (sized draw size g).1.
Proof.
move=> Hd; case: size => [n|] /=.
- have := @draws_all draw P n g Hd.
  by case: (draws draw n g) => vs g' /= H v /H.
- have := Hd g; case: (draw g) => u g' /= Hu v.
  by case=> // <-.
Qed.


(** The density of each class at a point of its support. *)








Lemma halfnormal_get_random_shape (c : pyval) (s : R) (size : option nat)
  (g : rng) :
  exists v g',
    halfnormal_get_random draw_normal c s size g = Ok (v, g')
    /\ has_shape size v.
Proof.
rewrite /halfnormal_get_random /np_random_normal.
rewrite (Rlt_b_false (Rabs_pos s)).
have := sized_shape draw_normal size g.
case: (sized draw_normal size g) => v g' /= Hv.
by do 2 eexists; split; first by []; do 2 apply: sample_map_shape.
Qed.

(** X12: the shape of a sample.  For every class but the asymmetric and
    the numerical one, [get_random] returns without an exception, one
    scalar when [size] is not given and an array of [n] values for
    [size=n]. *)
Theorem get_random_shape (d : dist) (size : option nat) (g : rng) :
  passes_size d ->
  exists s g',
    get_random draw_uniform draw_normal d size g = Ok (s, g')
    /\ has_shape size s.
Proof.
case: d => [c h|c|c s|c r l|c s|c s lim cl|c f q] //= Hd.
- rewrite /np_random_uniform.
  have := sized_shape draw_uniform size g.
  case: (sized draw_uniform size g) => v g' /= Hv.
  by do 2 eexists; split; first by []; do 2 apply: sample_map_shape.
- do 2 eexists; split; first by [].
  apply: sample_map_shape.
  by case: (size) => [n|] //=; rewrite size_map size_nseq.
- rewrite /np_random_normal (Rlt_b_false Hd).
  have := sized_shape draw_normal size g.
  case: (sized draw_normal size g) => v g' /= Hv.
  by do 2 eexists; split; first by []; do 2 apply: sample_map_shape.
- have [v [g' [-> Hv]]] := halfnormal_get_random_shape c s size g.
  by do 2 eexists; split; first by []; apply: sample_map_shape.
- have [v [g' [-> Hv]]] := halfnormal_get_random_shape c s size g.
  by do 2 eexists; split; first by []; apply: sample_map_shape.
Qed.

(** X13: the constructor of the asymmetric distribution accepts deviations
    of zero, but an instance with two zero deviations cannot be sampled:
    [get_random] divides by the sum of the deviations.  For the
    deviations the constructor accepts, [get_random] raises a
    [ZeroDivisionError] exactly when both are zero, and returns a sample
    otherwise. *)
Theorem asymmetric_get_random_raises_iff (c : pyval) (r l : R)
  (size : option nat) (g : rng) :
  0 <= r -> 0 <= l ->
  [/\ AsymmetricNormalDistribution_init c r l
      = Ok (AsymmetricNormalDistribution c r l),
      (exists msg,
         get_random draw_uniform draw_normal
           (AsymmetricNormalDistribution c r l) size g
         = Raise (ZeroDivisionError msg))
      <-> r = 0 /\ l = 0
    & r + l <> 0 ->
      exists s g',
        get_random draw_uniform draw_normal
          (AsymmetricNormalDistribution c r l) size g = Ok (s, g')].
Proof.
move=> Hr Hl; split.
- by rewrite /AsymmetricNormalDistribution_init !Rlt_b_false.
- rewrite /= /asymmetric_get_random; case: (draw_uniform g) => u g1.
  case: eqP => Hrl.
    by split=> _; [split; lra | eexists].
  rewrite /np_random_normal (Rlt_b_false Hr) (Rlt_b_false Hl) /=.
  case: (draw_normal g1) => z g2.
  split; first by case=> msg; case: (Rlt_b _ u).
  by case=> H1 H2; case: Hrl; lra.
- move=> Hrl; rewrite /= /asymmetric_get_random.
  case: (draw_uniform g) => u g1; rewrite (eqr_false Hrl).
  rewrite /np_random_normal (Rlt_b_false Hr) (Rlt_b_false Hl) /=.
  case: (draw_normal g1) => z g2.
  by case: (Rlt_b _ u) => /=; do 2 eexists.
Qed.

End SamplingMore.

Section SamplingExamples.

Local Open Scope R_scope.


Lemma get_random_shape_witness :
  exists s g',
    get_random constant_uniform constant_normal
      (NormalDistribution (PyFloat 0) 1) (Some 3%N) 0%N = Ok (s, g')
    /\ has_shape (Some 3%N) s.
Proof. by apply: get_random_shape; rewrite /=; lra. Defined.

Lemma asymmetric_get_random_raises_iff_witness :
  [/\ AsymmetricNormalDistribution_init (PyFloat 0) 0 0
      = Ok (AsymmetricNormalDistribution (PyFloat 0) 0 0),
      (exists msg,
         get_random constant_uniform constant_normal
           (AsymmetricNormalDistribution (PyFloat 0) 0 0) (Some 3%N) 0%N
         = Raise (ZeroDivisionError msg))
      <-> 0 = 0 /\ 0 = 0
    & 0 + 0 <> 0 ->
      exists s g',
        get_random constant_uniform constant_normal
          (AsymmetricNormalDistribution (PyFloat 0) 0 0) (Some 3%N) 0%N
        = Ok (s, g')].
Proof. by apply: asymmetric_get_random_raises_iff; lra. Defined.

End SamplingExamples.

(** ** The numerical distribution: constructor, density and samples *)

Section NumericalMore.

Local Open Scope R_scope.

Lemma interp1d_init_inv (x y : seq fval) (fill : fval) (bounds : bool)
  (f : interp1d) :
  interp1d_init x y fill bounds = Ok f ->
  size x = size y /\ (2 <= size x)%N.
Proof.
rewrite /interp1d_init; case: eqP => //= Hsz.
by rewrite ltnNge; case: (2 <= size x)%N.
Qed.

(** The constructor on every table with two or more points and as many
    densities: the interpolant of the log-density is built on the
    abscissas as they are when these are in order. *)
Lemma NumericalDistribution_init_ok (x y : seq R) (central : option pyval) :
  (2 <= size x)%N -> size y = size x ->
  exists c logpdf_interp ppf_interp,
    NumericalDistribution_init x y central
    = Ok (NumericalDistribution c logpdf_interp ppf_interp)
    /\ (sorted Rle_b x ->
        logpdf_interp
        = Interp1d (map Fin x)
            (map np_log (y_norm y (last 0 x - head 0 x))) NegInf true).
Proof.
move=> H2 Hsz.
have Hx0 : (0 < size x)%N by exact: ltn_trans H2.
rewrite /NumericalDistribution_init.
have [c ->] : exists c,
    match central with
    | Some c => Ok c
    | None => i <- np_argmax y ;; mode <- getitem x i ;; Ok (PyFloat mode)
    end = Ok c.
  case: central => [c|]; first by exists c.
  by have [m ->] := mode_ok Hsz Hx0; exists (PyFloat m).
have -> : getitem_last x = Ok (last 0 x) by case: (x) Hx0.
have -> : getitem0 x = Ok (head 0 x) by case: (x) Hx0.
have Hsz1 : size (map Fin x)
            = size (map np_log (y_norm y (last 0 x - head 0 x))).
  by rewrite !size_map /y_norm ?size_map Hsz.
have H21 : (2 <= size (map Fin x))%N by rewrite size_map.
have [li [Eli _]] := @interp1d_init_ok _ _ NegInf true Hsz1 H21.
have Hy0 : (0 < size y)%N by rewrite Hsz.
have [cdf [Ecdf Hcdf]] := @cdf_table_ok y (last 0 x - head 0 x) Hy0.
have Hsz2 : size cdf = size (map Fin x) by rewrite size_map Hcdf.
have H22 : (2 <= size cdf)%N by rewrite Hsz2 size_map.
have [ppf [Eppf _]] := @interp1d_init_ok _ _ NaN true Hsz2 H22.
rewrite /bind Eli Ecdf Eppf.
exists c, li, ppf; split=> // Hs.
have Hsz3 : size x = size (map np_log (y_norm y (last 0 x - head 0 x))).
  by rewrite -Hsz1 size_map.
by move: Eli; rewrite (interp1d_init_sorted _ _ Hsz3 H2 Hs) => -[].
Qed.

(** What a table that the constructor accepts looks like. *)
Lemma NumericalDistribution_init_inv (x y : seq R) (central : option pyval)
  (d : dist) :
  NumericalDistribution_init x y central = Ok d ->
  (2 <= size x)%N /\ size y = size x.
Proof.
rewrite /NumericalDistribution_init.
case: (match central with Some _ => _ | None => _ end) => [c|e] //=.
case: (getitem_last x) => [xl|e] //=.
case: (getitem0 x) => [xf|e] //=.
case E: (interp1d_init _ _ _ _) => [li|e] //= _.
have [] := interp1d_init_inv E.
by rewrite !size_map /y_norm ?size_map => -> ->.
Qed.

(** X14: the constructor of NumericalDistribution returns an instance for
    every table with at least two abscissas and as many densities, with
    or without a central value; it raises when there are no abscissas and
    when the numbers of abscissas and of densities differ. *)
Theorem NumericalDistribution_init_returns (x y : seq R)
  (central : option pyval) :
  ((2 <= size x)%N -> size y = size x ->
   exists d, NumericalDistribution_init x y central = Ok d)
  /\ (x = [::] \/ size y <> size x ->
      exists e, NumericalDistribution_init x y central = Raise e).
Proof.
split.
  move=> H2 Hsz.
  have [c [li [ppf [-> _]]]] := NumericalDistribution_init_ok central H2 Hsz.
  by eexists.
case E: (NumericalDistribution_init x y central) => [d|e] H; last by exists e.
have [H2 Hsz] := NumericalDistribution_init_inv E.
by case: H => [Hx|//]; move: H2; rewrite Hx.
Qed.

(** *** Normalisation *)






(** *** Inside the tabulated range *)

Lemma interp1d_call_bounds (keys : seq R) (vals : seq fval) (fill : fval)
  (x_new : R) :
  (0 < size keys)%N -> sorted Rle_b keys ->
  (exists v, interp1d_call (Interp1d (map Fin keys) vals fill true)
               (Fin x_new) = Ok v)
  <-> head 0 keys <= x_new <= last 0 keys.
Proof.
move=> Hn Hs; rewrite /interp1d_call /= head_map_Fin // last_map_Fin //=.
have Hhl := head_le_last Hs.
case: (Rlt_bP x_new (head 0 keys)) => H1.
  by split=> [[v]|] //; lra.
case: (Rlt_bP (last 0 keys) x_new) => H2.
  by split=> [[v]|] //; lra.
by split=> [_|_]; [lra | eexists].
Qed.

(** X16: [logpdf] of a NumericalDistribution built on strictly increasing
    abscissas returns a value exactly for the points of the tabulated
    range, its two ends included. *)
Theorem numerical_logpdf_returns_iff (x y : seq R) (central : option pyval) :
  (2 <= size x)%N -> size y = size x -> sorted Rlt_b x ->
  exists d,
    NumericalDistribution_init x y central = Ok d
    /\ forall x_new,
         (exists v, logpdf d x_new = Ok v)
         <-> head 0 x <= x_new <= last 0 x.
Proof.
move=> H2 Hsz Hs.
have Hle : sorted Rle_b x by apply: sub_sorted Hs; exact: Rlt_le_b.
have Hx0 : (0 < size x)%N by exact: ltn_trans H2.
have [c [li [ppf [-> /(_ Hle) ->]]]] :=
  NumericalDistribution_init_ok central H2 Hsz.
eexists; split; first by [].
by move=> x_new; rewrite /= /numerical_logpdf; exact: interp1d_call_bounds.
Qed.

Lemma has_false_In (p : pred R) (s : seq R) :
  (forall v, List.In v s -> p v = false) -> has p s = false.
Proof.
elim: s => [|a s IH] //= H.
by rewrite (H a (or_introl erefl)) IH // => v Hv; apply: H; right.
Qed.

Lemma linear_interp_range (cs xs : seq R) (p : R) :
  well_formed_cdf cs -> size xs = size cs -> sorted Rle_b xs ->
  0 <= p <= 1 ->
  head 0 xs <= linear_interp cs xs p <= last 0 xs.
Proof.
move=> Hwf Hsz Hs [Hp0 Hp1].
rewrite -(linear_interp_0 Hwf Hsz) -(linear_interp_1 Hwf Hsz).
split; apply: linear_interp_mono => //; lra.
Qed.

(** *** The default central value *)

Lemma argmax_from_spec (s pre : seq R) (best : R) (ibest : nat) :
  (ibest < size pre)%N -> best = nth 0 (pre ++ s) ibest ->
  (forall j, (j < size pre)%N -> nth 0 (pre ++ s) j <= best) ->
  (forall j, (j < ibest)%N -> nth 0 (pre ++ s) j < best) ->
  let r := argmax_from best ibest (size pre) s in
  [/\ (r < size (pre ++ s))%N,
      forall j, (j < size (pre ++ s))%N ->
                nth 0 (pre ++ s) j <= nth 0 (pre ++ s) r
    & forall j, (j < r)%N -> nth 0 (pre ++ s) j < nth 0 (pre ++ s) r].
Proof.
elim: s pre best ibest => [|a s IH] pre best ibest Hib Hbest Hle Hlt /=.
  rewrite cats0 in Hbest Hle Hlt *; split=> //.
  - by move=> j /Hle; rewrite -Hbest.
  - by move=> j /Hlt; rewrite -Hbest.
have Ha : nth 0 (pre ++ a :: s) (size pre) = a.
  by rewrite nth_cat ltnn subnn.
have Hsz : (size pre).+1 = size (rcons pre a) by rewrite size_rcons.
rewrite -cat_rcons in Hbest Hle Hlt Ha *.
case: (Rlt_bP best a) => Hba; rewrite Hsz; apply: IH.
- by rewrite size_rcons.
- by rewrite Ha.
- move=> j; rewrite size_rcons ltnS leq_eqVlt => /orP [/eqP ->|/Hle H].
  + by rewrite Ha; lra.
  + by lra.
- by move=> j /Hle H; lra.
- by rewrite size_rcons; exact: ltnW.
- by [].
- move=> j; rewrite size_rcons ltnS leq_eqVlt => /orP [/eqP ->|/Hle //].
  by rewrite Ha; lra.
- by [].
Qed.

Lemma np_argmax_spec (y : seq R) :
  (0 < size y)%N ->
  exists i,
    [/\ np_argmax y = Ok i, (i < size y)%N,
        forall j, (j < size y)%N -> nth 0 y j <= nth 0 y i
      & forall j, (j < i)%N -> nth 0 y j < nth 0 y i].
Proof.
case: y => [|a s] // _.
have [] := @argmax_from_spec s [:: a] a 0 isT erefl.
- by case=> //= _; lra.
- by [].
by move=> H1 H2 H3; eexists; split.
Qed.

(** X17: when no central value is given, the central value is the mode of
    the table: the abscissa of the first largest density. *)
Theorem NumericalDistribution_init_mode (x y : seq R) :
  (2 <= size x)%N -> size y = size x ->
  exists i logpdf_interp ppf_interp,
    [/\ NumericalDistribution_init x y None
        = Ok (NumericalDistribution (PyFloat (nth 0 x i))
                logpdf_interp ppf_interp),
        (i < size y)%N,
        forall j, (j < size y)%N -> nth 0 y j <= nth 0 y i
      & forall j, (j < i)%N -> nth 0 y j < nth 0 y i].
Proof.
move=> H2 Hsz.
have Hy0 : (0 < size y)%N by rewrite Hsz; exact: ltn_trans H2.
have [i [Ei Hi Hmax Hfirst]] := np_argmax_spec Hy0.
have [c [li [ppf [E _]]]] := NumericalDistribution_init_ok None H2 Hsz.
exists i, li, ppf; split=> //.
move: E; rewrite /NumericalDistribution_init Ei /= /getitem -Hsz Hi /=.
case: (getitem_last x) => [xl|e] //=.
case: (getitem0 x) => [xf|e] //=.
case: (interp1d_init _ _ _ _) => [li'|e] //=.
case: (cdf_table _ _) => [cdf|e] //=.
by case: (interp1d_init _ _ _ _) => [ppf'|e] //= [_ -> ->].
Qed.

(** *** At the tabulated points *)

Lemma sorted_nth_lt (s : seq R) (i j : nat) :
  sorted Rlt_b s -> (i < j)%N -> (j < size s)%N -> nth 0 s i < nth 0 s j.
Proof.
move=> Hs Hij Hj; apply/Rlt_bP.
apply: (sorted_ltn_nth Rlt_b_trans) => //.
by rewrite inE; apply: ltn_trans Hj.
Qed.

Lemma find_nth_sorted (xs : seq R) (i : nat) :
  sorted Rlt_b xs -> (i < size xs)%N ->
  find (Rle_b (nth 0 xs i)) xs = i.
Proof.
move=> Hs Hi.
have Hhas : has (Rle_b (nth 0 xs i)) xs.
  apply/hasP; exists (nth 0 xs i); first exact: mem_nth.
  exact: Rle_b_refl.
apply/eqP; rewrite eqn_leq; apply/andP; split.
- rewrite leqNgt; apply/negP => /(before_find 0).
  by rewrite Rle_b_refl.
- rewrite leqNgt; apply/negP => Hlt.
  have /Rle_bP := nth_find 0 Hhas.
  have := sorted_nth_lt Hs Hlt Hi.
  by lra.
Qed.

Lemma y_norm_positive (y : seq R) (x_range : R) :
  0 < py_sum y -> 0 < x_range -> all (Rlt_b 0) y ->
  map np_log (y_norm y x_range)
  = map Fin [seq ln (yi / py_sum y * x_range) | yi <- y].
Proof.
move=> HS Hr Hy; have HS0 : py_sum y <> 0 by lra.
rewrite (y_norm_real _ HS0) -!map_comp.
apply/eq_in_map => yi Hyi /=.
have /Rlt_bP Hpos : Rlt_b 0 yi by move/allP: Hy; apply.
have Hp : 0 < yi / py_sum y * x_range.
  apply: Rmult_lt_0_compat => //; apply: Rmult_lt_0_compat => //.
  exact: Rinv_0_lt_compat.
by rewrite (Rlt_b_true Hp).
Qed.

Lemma py_sum_positive (y : seq R) :
  (0 < size y)%N -> all (Rlt_b 0) y -> 0 < py_sum y.
Proof.
rewrite py_sum_sumR; case: y => [|a y] //= _ /andP [/Rlt_bP Ha Hy].
have : 0 <= sumR y.
  by apply: sumR_ge0; apply: sub_all Hy => b /Rlt_le_b.
by lra.
Qed.

(** The interpolant of a table of reals returns the tabulated value at a
    tabulated point. *)
Lemma call_linear_at_point (xs vs : seq R) (fill : fval) (bounds : bool)
  (i : nat) :
  (2 <= size xs)%N -> size vs = size xs -> sorted Rlt_b xs ->
  (i < size xs)%N ->
  call_linear (Interp1d (map Fin xs) (map Fin vs) fill bounds)
    (Fin (nth 0 xs i))
  = Fin (nth 0 vs i).
Proof.
move=> H2 Hsz Hs Hi; rewrite /call_linear /= size_map find_Fin.
rewrite (find_nth_sorted Hs Hi).
have Hn1 : (0 < (size xs).-1)%N by rewrite -subn1 subn_gt0.
have H1 : (1 < size xs)%N by [].
case: i Hi => [|i] Hi.
- rewrite (clip_lo H2 erefl) /=.
  have H0v : (0 < size vs)%N by rewrite Hsz.
  have H1v : (1 < size vs)%N by rewrite Hsz.
  rewrite (nth_map_Fin Hi) (nth_map_Fin H1) (nth_map_Fin H0v)
          (nth_map_Fin H1v).
  have Hlt := @sorted_nth_lt xs 0 1 Hs isT H1.
  have Hne : nth 0 xs 1 + - nth 0 xs 0 <> 0 by lra.
  by rewrite /= (eqr_false Hne) /=; congr Fin; field; lra.
- have Hle : (i.+1 <= (size xs).-1)%N by rewrite -ltnS prednK // ltnW.
  rewrite (clip_in (ltn0Sn i) Hle) /=.
  have Hi' : (i < size xs)%N by exact: ltnW.
  have Hiv : (i.+1 < size vs)%N by rewrite Hsz.
  have Hiv' : (i < size vs)%N by rewrite Hsz.
  rewrite (nth_map_Fin Hi) (nth_map_Fin Hi') (nth_map_Fin Hiv)
          (nth_map_Fin Hiv').
  have Hlt := @sorted_nth_lt xs i i.+1 Hs (ltnSn i) Hi.
  have Hne : nth 0 xs i.+1 + - nth 0 xs i <> 0 by lra.
  by rewrite /= (eqr_false Hne) /=; congr Fin; field; lra.
Qed.

(** X18: at every tabulated abscissa, [logpdf] returns the logarithm of
    the tabulated density after normalisation, [y_i / sum(y) * range],
    when all densities are positive. *)
Theorem numerical_logpdf_at_point (x y : seq R) (central : option pyval)
  (i : nat) :
  (2 <= size x)%N -> size y = size x -> sorted Rlt_b x ->
  all (Rlt_b 0) y -> (i < size x)%N ->
  exists d,
    NumericalDistribution_init x y central = Ok d
    /\ logpdf d (nth 0 x i)
       = Ok (Fin (ln (nth 0 y i / py_sum y * (last 0 x - head 0 x)))).
Proof.
move=> H2 Hsz Hs Hy Hi.
have Hle : sorted Rle_b x by apply: sub_sorted Hs; exact: Rlt_le_b.
have Hx0 : (0 < size x)%N by exact: ltn_trans H2.
have Hr : 0 < last 0 x - head 0 x by have := head_lt_last H2 Hs; lra.
have HS : 0 < py_sum y by apply: py_sum_positive; rewrite ?Hsz.
have [c [li [ppf [-> /(_ Hle) ->]]]] :=
  NumericalDistribution_init_ok central H2 Hsz.
eexists; split; first by [].
rewrite /= /numerical_logpdf /interp1d_call /=.
rewrite head_map_Fin // last_map_Fin //= (y_norm_positive HS Hr Hy).
have Hh : head 0 x <= nth 0 x i.
  by rewrite -nth0; apply: sorted_nth_le.
have Hl : nth 0 x i <= last 0 x.
  rewrite -nth_last; apply: sorted_nth_le => //; last by rewrite prednK.
  by rewrite -ltnS prednK.
rewrite (Rlt_b_false Hh) (Rlt_b_false Hl) /=.
rewrite call_linear_at_point ?size_map //.
by rewrite (nth_map 0) ?Hsz.
Qed.

End NumericalMore.

Section NumericalSampling.

Local Open Scope R_scope.

Variable rng : Type.
Variable draw_uniform : rng -> R * rng.
Variable draw_normal : rng -> R * rng.

(** X19: sampling a NumericalDistribution.  For a table with strictly
    increasing abscissas and densities that are not negative, whose first
    two are not both zero and whose last is positive, and uniform draws
    in [0, 1), [get_random] returns without an exception, in the shape
    [size] asks for, values that lie in the tabulated range, where
    [logpdf] returns a value. *)
Theorem numerical_get_random_range (x y : seq R) (central : option pyval) :
  (2 <= size x)%N -> size y = size x -> sorted Rlt_b x ->
  all (Rle_b 0) y -> 0 < nth 0 y 0 + nth 0 y 1 -> 0 < last 0 y ->
  (forall g, 0 <= (draw_uniform g).1 < 1) ->
  exists d,
    NumericalDistribution_init x y central = Ok d
    /\ forall size g,
       exists s g',
         [/\ get_random draw_uniform draw_normal d size g = Ok (s, g'),
             has_shape size s
           & sample_all
               (fun v => exists r,
                  [/\ v = Fin r, head 0 x <= r <= last 0 x
                    & exists l, logpdf d r = Ok l]) s].
Proof.
move=> H2 Hsz Hs Hy Hsec Hlast Hu.
have Hle : sorted Rle_b x by apply: sub_sorted Hs; exact: Rlt_le_b.
have Hx0 : (0 < size x)%N by exact: ltn_trans H2.
have Hr : 0 < last 0 x - head 0 x by have := head_lt_last H2 Hs; lra.
have H2y : (2 <= size y)%N by rewrite Hsz.
have [cs [Hcdf Hsc Hwf]] := well_formed_table H2y Hy Hsec Hlast Hr.
have [c Hinit] := NumericalDistribution_init_unfold central H2 Hsz Hle Hcdf
                    (cdf_sorted Hwf).
have Hxc : size x = size cs by rewrite Hsc.
have Hn0 : (0 < size cs)%N by rewrite -Hxc.
eexists; split; first exact: Hinit.
move=> size g; rewrite /= /np_random_uniform.
have := @sized_all rng draw_uniform (fun u => 0 <= u < 1) size g Hu.
have := sized_shape draw_uniform size g.
case: (sized draw_uniform size g) => smp g' /= Hshape Hall.
set r := sample_map _ smp.
have Hr01 : sample_all (fun p => 0 <= p < 1) r.
  apply: sample_all_map; apply: sample_all_impl Hall => u [Hu0 Hu1].
  by lra.
rewrite /interp1d_call_sample /= head_map_Fin // last_map_Fin //.
rewrite (cdf_head Hwf) (cdf_last Hwf) /=.
have -> : has (fun v => Rlt_b v 0) (sample_values r) = false.
  by apply: has_false_In => v /Hr01 [Hv0 _]; exact: Rlt_b_false.
have -> : has (fun v => Rlt_b 1 v) (sample_values r) = false.
  apply: has_false_In => v /Hr01 [_ Hv1]; apply: Rlt_b_false.
  exact: Rlt_le.
do 2 eexists; split; first by [].
  by do 2 apply: sample_map_shape.
apply: sample_all_map; apply: sample_all_impl Hr01 => p [Hp0 Hp1].
have Hp : 0 <= p <= 1 by lra.
rewrite (Rlt_b_false Hp0) (Rlt_b_false (Rlt_le _ _ Hp1)) /=.
rewrite (call_linear_real NaN true Hwf Hxc Hp).
have Hrange := linear_interp_range Hwf Hxc Hle Hp.
eexists; split; [by [] | exact: Hrange |].
rewrite /numerical_logpdf.
by apply/interp1d_call_bounds.
Qed.

End NumericalSampling.

Section NumericalExamples.

Local Open Scope R_scope.

Lemma sorted_zero_one : sorted Rlt_b [:: 0; 1].
Proof. by rewrite /= Rlt_b_true //; lra. Qed.

Lemma NumericalDistribution_init_returns_witness :
  (exists d, NumericalDistribution_init [:: 0; 1] [:: 1; 3] None = Ok d)
  /\ (exists e, NumericalDistribution_init [:: 0; 1] [:: 1] None = Raise e).
Proof.
split.
- by apply: (NumericalDistribution_init_returns [:: 0; 1] [:: 1; 3] None).1.
- by apply: (NumericalDistribution_init_returns [:: 0; 1] [:: 1] None).2; right.
Defined.


Lemma numerical_logpdf_returns_iff_witness :
  exists d,
    NumericalDistribution_init [:: 0; 1] [:: 1; 3] None = Ok d
    /\ forall x_new,
         (exists v, logpdf d x_new = Ok v)
         <-> head 0 [:: 0; 1] <= x_new <= last 0 [:: 0; 1].
Proof.
by apply: numerical_logpdf_returns_iff => //; exact: sorted_zero_one.
Defined.

Lemma NumericalDistribution_init_mode_witness :
  exists i logpdf_interp ppf_interp,
    [/\ NumericalDistribution_init [:: 0; 1] [:: 1; 3] None
        = Ok (NumericalDistribution (PyFloat (nth 0 [:: 0; 1] i))
                logpdf_interp ppf_interp),
        (i < size [:: 1; 3])%N,
        forall j, (j < size [:: 1; 3])%N ->
                  nth 0 [:: 1; 3] j <= nth 0 [:: 1; 3] i
      & forall j, (j < i)%N -> nth 0 [:: 1; 3] j < nth 0 [:: 1; 3] i].
Proof. exact: NumericalDistribution_init_mode. Defined.

Lemma numerical_logpdf_at_point_witness :
  exists d,
    NumericalDistribution_init [:: 0; 1] [:: 1; 3] None = Ok d
    /\ logpdf d (nth 0 [:: 0; 1] 1)
       = Ok (Fin (ln (nth 0 [:: 1; 3] 1 / py_sum [:: 1; 3]
                      * (last 0 [:: 0; 1] - head 0 [:: 0; 1])))).
Proof.
apply: numerical_logpdf_at_point => //; first exact: sorted_zero_one.
by rewrite /= !Rlt_b_true //; lra.
Defined.

Lemma numerical_get_random_range_witness :
  exists d,
    NumericalDistribution_init [:: 0; 1] [:: 1; 3] None = Ok d
    /\ forall size g,
       exists s g',
         [/\ get_random constant_uniform constant_normal d size g
             = Ok (s, g'),
             has_shape size s
           & sample_all
               (fun v => exists r,
                  [/\ v = Fin r,
                      head 0 [:: 0; 1] <= r <= last 0 [:: 0; 1]
                    & exists l, logpdf d r = Ok l]) s].
Proof.
apply: numerical_get_random_range => //.
- exact: sorted_zero_one.
- by rewrite /= !Rle_b_true //; lra.
- by rewrite /=; lra.
- by rewrite /=; lra.
- by move=> g /=; lra.
Defined.

End NumericalExamples.

(** ** The multivariate normal distribution: mode and one dimension *)

Section MultivariateMore.

Local Open Scope ring_scope.

(** The value of [logpdf], with the instance taken apart. *)
Lemma multivariate_logpdf_value (n : nat) (mu : 'rV[R]_n) (A : 'M[R]_n)
  (x : 'rV[R]_n) :
  posdef A ->
  multivariate_logpdf (MultivariateNormalDistribution mu A) x
  = Ok (mvn_log_density mu A x).
Proof.
move=> HA; rewrite /multivariate_logpdf /= !np_divide_row np_divide_cov.
rewrite /multivariate_normal_logpdf.
destruct (excluded_middle_informative _) as [Hp|Hn]; last first.
  by case: Hn; exact: (@rescale_posdef _ _ HA).
set Dinv := diag_mx _.
have Hd := @det_posdef _ _ HA.
have Hq : \det Dinv != 0 by exact: (@rescale_det_neq0 _ _ HA).
have Hq2 : Rlt 0%Re (Rmult (\det Dinv) (\det Dinv)).
  have /eqP := Hq; rewrite R0E => H.
  by have := Rsqr_pos_lt _ H; rewrite /Rsqr.
have Hd' : Rlt 0%Re (\det (Dinv *m A *m Dinv)).
  by rewrite (@rescale_det _ A) !RmultE; apply: Rmult_lt_0_compat.
have Hr : Rlt 0%Re (Rdiv (\det (Dinv *m A *m Dinv)) (\det A)).
  exact: Rdiv_lt_0_compat.
rewrite /bind (math_log_pos Hr) (@ln_quot _ _ Hd' Hd) /mvn_log_density.
rewrite -mulmxBl (@rescale_mahalanobis _ _ HA).
congr Ok.
move: (INR n * ln (2 * PI))%Re (ln (\det (Dinv *m A *m Dinv))) (ln (\det A))
      (mahalanobis A (x - mu)) => a b c q.
by lra.
Qed.




Lemma ln_sqrt_half (a : R) : Rlt 0%Re a -> ln (sqrt a) = (ln a / 2)%Re.
Proof.
move=> Ha; have Hs := sqrt_lt_R0 _ Ha.
have E : ln a = (ln (sqrt a) + ln (sqrt a))%Re.
  by rewrite -(ln_mult _ _ Hs Hs) sqrt_sqrt //; lra.
by lra.
Qed.

Lemma posdef_scalar1 (v : R) : Rlt 0%Re v -> posdef (v%:M : 'M[R]_1).
Proof.
move=> Hv; rewrite -diag_const_mx; apply: posdef_diag => j.
by rewrite mxE.
Qed.

Lemma mvn_log_density_1 (mu v x : R) :
  Rlt 0%Re v ->
  mvn_log_density (mu%:M : 'rV[R]_1) (v%:M : 'M[R]_1) x%:M
  = gaussian_log_density mu (sqrt v) x.
Proof.
move=> Hv; have Hs := sqrt_lt_R0 _ Hv.
rewrite (gaussian_log_density_formula _ _ Hs) /mvn_log_density.
rewrite det_scalar1 /mahalanobis invmx_scalar -raddfB /= tr_scalar_mx.
rewrite -!scalar_mxM mxE eqxx mulr1n.
have Hpi : Rlt 0%Re (2 * PI)%Re by have := PI_RGT_0; lra.
rewrite (ln_sqrt_half Hpi) (ln_sqrt_half Hv).
have -> : ((x - mu) / v * (x - mu))%R = ((x - mu) * / v * (x - mu))%Re.
  by [].
have Es : (sqrt v * sqrt v)%Re = v by apply: sqrt_sqrt; lra.
move: (sqrt v) Hs Es (ln (2 * PI)%Re) (ln v) => s Hs Es a b.
by rewrite -Es; field; lra.
Qed.

(** X21: in one dimension the multivariate distribution is the Normal one:
    with covariance [[v]] it has the [logpdf] of
    [NormalDistribution(mu, sqrt(v))]. *)
Theorem multivariate_logpdf_univariate (mu v x : R) :
  Rlt 0%Re v ->
  exists l,
    multivariate_logpdf
      (MultivariateNormalDistribution (mu%:M : 'rV[R]_1) (v%:M : 'M[R]_1))
      x%:M = Ok l
    /\ logpdf (NormalDistribution (PyFloat mu) (sqrt v)) x = Ok (Fin l).
Proof.
move=> Hv; have Hs := sqrt_lt_R0 _ Hv.
exists (gaussian_log_density mu (sqrt v) x); split.
- by rewrite (multivariate_logpdf_value _ _ (posdef_scalar1 Hv))
             mvn_log_density_1.
- by rewrite /= /normal_logpdf (norm_logpdf_gaussian mu x Hs).
Qed.

End MultivariateMore.

Section MultivariateExamples.

Local Open Scope ring_scope.



Lemma multivariate_logpdf_univariate_witness :
  exists l,
    multivariate_logpdf
      (MultivariateNormalDistribution (0%Re%:M : 'rV[R]_1)
         (4%Re%:M : 'M[R]_1)) (1%Re)%:M = Ok l
    /\ logpdf (NormalDistribution (PyFloat 0) (sqrt 4)) 1 = Ok (Fin l).
Proof. by apply: multivariate_logpdf_univariate; lra. Defined.

End MultivariateExamples.
